(** * sketch-squad: the room / game-session engine of [server/index.js]

    A shallow embedding of the session server: the in-memory room registry
    ([roomsCache]), the lobby operations ([createRoom], [joinRoom],
    [leaveRoom]), the guess evaluation in [addMessage], the round machinery
    ([startGame], [startRoundTimer], [endRound] and its delayed continuation)
    and the stale-room sweep ([cleanupRooms]).

    Modelling conventions.
    - A JS number that the server only ever uses as an integer (scores,
      rounds, seconds, array indices, millisecond timestamps) is a [Z];
      [Array.prototype.findIndex] returns [-1] when nothing matches and the
      remainder operator [%] is [Z.rem].
    - [roomsCache] is a [gmap] from room id to room; [players], [messages] and
      [correctGuessers] are lists in insertion order.
    - The registry is an object: besides the rooms it holds, [rooms[name]]
      finds what the object inherits from [Object.prototype].  The names it
      inherits are part of the state ([inheritedKeys]).
    - A call either returns or throws ([Throws]); what the socket handler
      makes of a thrown error (its "Failed to ..." answer) is not modelled,
      nor are the packets the server emits.
    - Each [async] function is given as the stretches of code that run
      without interruption, and as the whole call.  The events of [run] are
      whole calls; the actions of [step] are stretches, with the calls that
      are suspended at an [await] on the file system kept in the state, so
      that calls overlap as they do in the server.  The JSON mirror on disk
      is not modelled: [getRooms] always answers from memory.
    - [Math.random()] and [new Date()] are inputs of the operation that reads
      them: the drawn index, the drawn word and the current time are explicit
      arguments.
    - [setInterval] / [setTimeout] handles are kept in the server state as the
      lists [intervals] and [timeouts] of the room ids their closures
      captured; a firing callback is a transition of its own, and it may fire
      at any moment (the 1 s and 5 s delays are not modelled, so every real
      schedule is among the modelled ones).
    - [toLowerCase] and [trim] are the engine's, and a parameter of the
      model ([Js.Engine]).  Strings are sequences of bytes (UTF-8). *)

From Stdlib Require Import ZArith Lia Ascii String.
From stdpp Require Import gmap strings list fin_maps.

(* ===================================================================== *)
(** ** JavaScript built-ins used by the server *)
(* ===================================================================== *)

Module Js.

(** [arr.findIndex(f)]: index of the first element satisfying [f], or -1. *)
Fixpoint findIndexFrom {A : Type} (f : A → bool) (i : Z) (arr : list A) : Z :=
  match arr with
  | [] => (-1)%Z
  | x :: rest => if f x then i else findIndexFrom f (i + 1)%Z rest
  end.

Definition findIndex {A : Type} (f : A → bool) (arr : list A) : Z :=
  findIndexFrom f 0%Z arr.

(** [arr[i]] for a numeric index: [undefined] (here [None]) out of range. *)
Definition at_ {A : Type} (arr : list A) (i : Z) : option A :=
  if (i <? 0)%Z then None else arr !! Z.to_nat i.

(** [arr.includes(x)] *)
Definition includes {A : Type} `{EqDecision A} (arr : list A) (x : A) : bool :=
  bool_decide (x ∈ arr).

(** A property of an object that came as JSON: the key is missing, or it is
    there with [null], or with a value. *)
Inductive property (A : Type) :=
| missing
| null
| value (a : A).
Arguments missing {A}.
Arguments null {A}.
Arguments value {A} a.

(** The property names every plain object inherits from [Object.prototype]:
    [obj[name]] is truthy for each of them although [obj] has no such key. *)
Definition objectPrototype : list string :=
  [ "constructor"; "__defineGetter__"; "__defineSetter__"; "hasOwnProperty";
    "__lookupGetter__"; "__lookupSetter__"; "isPrototypeOf";
    "propertyIsEnumerable"; "toString"; "valueOf"; "__proto__";
    "toLocaleString" ].

(** [String.prototype.toLowerCase] and [String.prototype.trim] are the
    engine's: which letters have a lower case, and which characters count as
    white space, is settled by the Unicode tables the engine ships.  The
    model takes the two functions as they come, as a parameter, and every
    statement below that involves them holds for each engine.  A string is
    the sequence of bytes of its UTF-8 form, so [===] on strings is [=]. *)
Class Engine := {
  toLowerCase : string → string;
  trim : string → string
}.

End Js.

(* ===================================================================== *)
(** ** Data model *)
(* ===================================================================== *)

Module Settings.
Record t := mk {
  maxPlayers : Z;
  roundDuration : Z;
  rounds : Z;
  wordCount : Z;
  hints : Z
}.
End Settings.
Abbreviation GameSettings := Settings.t.

(** The [{id, name, avatar}] object a client sends with [joinRoom] and as the
  [user] of a chat message. *)
Module User.
Record t := mk {
  id : string;
  name : string;
  avatar : Js.property string
}.
End User.

Module Player.
Record t := mk {
  id : string;
  name : string;
  avatar : Js.property string;
  score : Z;
  isDrawing : bool;
  isConnected : bool
}.

Definition with_score (p : t) (v : Z) : t :=
  mk (id p) (name p) (avatar p) v (isDrawing p) (isConnected p).
Definition with_isDrawing (p : t) (v : bool) : t :=
  mk (id p) (name p) (avatar p) (score p) v (isConnected p).
Definition with_isConnected (p : t) (v : bool) : t :=
  mk (id p) (name p) (avatar p) (score p) (isDrawing p) v.
End Player.
Abbreviation GamePlayer := Player.t.

Module Message.
(** What the client sends: [{id, user, text}]. *)
Record input := mkInput {
  in_id : string;
  in_user : User.t;
  in_text : string
}.

(** What [addMessage] stores in [room.messages]. *)
Record t := mk {
  id : string;
  user : User.t;
  text : string;
  isCorrect : bool;
  timestamp : Z
}.
End Message.
Abbreviation ChatMessage := Message.t.

Inductive GameStatus := waiting | playing | roundEnd | gameEnd.

#[global] Instance GameStatus_eq_dec : EqDecision GameStatus.
Proof. solve_decision. Defined.

Module Room.
Record t := mk {
  id : string;
  hostId : string;
  settings : GameSettings;
  players : list GamePlayer;
  messages : list ChatMessage;
  currentRound : Z;
  totalRounds : Z;
  currentWord : string;
  drawingPlayerId : option string;      (* [null] is [None] *)
  gameStatus : GameStatus;
  roundTimeLeft : Z;
  correctGuessers : option (list string); (* may be missing in an old snapshot *)
  createdAt : option Z                    (* milliseconds; [None] if missing *)
}.

Definition with_hostId (r : t) (v : string) : t :=
  mk (id r) v (settings r) (players r) (messages r) (currentRound r)
     (totalRounds r) (currentWord r) (drawingPlayerId r) (gameStatus r)
     (roundTimeLeft r) (correctGuessers r) (createdAt r).
Definition with_players (r : t) (v : list GamePlayer) : t :=
  mk (id r) (hostId r) (settings r) v (messages r) (currentRound r)
     (totalRounds r) (currentWord r) (drawingPlayerId r) (gameStatus r)
     (roundTimeLeft r) (correctGuessers r) (createdAt r).
Definition with_messages (r : t) (v : list ChatMessage) : t :=
  mk (id r) (hostId r) (settings r) (players r) v (currentRound r)
     (totalRounds r) (currentWord r) (drawingPlayerId r) (gameStatus r)
     (roundTimeLeft r) (correctGuessers r) (createdAt r).
Definition with_gameStatus (r : t) (v : GameStatus) : t :=
  mk (id r) (hostId r) (settings r) (players r) (messages r) (currentRound r)
     (totalRounds r) (currentWord r) (drawingPlayerId r) v
     (roundTimeLeft r) (correctGuessers r) (createdAt r).
Definition with_roundTimeLeft (r : t) (v : Z) : t :=
  mk (id r) (hostId r) (settings r) (players r) (messages r) (currentRound r)
     (totalRounds r) (currentWord r) (drawingPlayerId r) (gameStatus r)
     v (correctGuessers r) (createdAt r).
Definition with_correctGuessers (r : t) (v : list string) : t :=
  mk (id r) (hostId r) (settings r) (players r) (messages r) (currentRound r)
     (totalRounds r) (currentWord r) (drawingPlayerId r) (gameStatus r)
     (roundTimeLeft r) (Some v) (createdAt r).

(** [room.players.filter(p => p.isConnected)] *)
Definition connectedPlayers (r : t) : list GamePlayer :=
  filter (λ p, Player.isConnected p) (players r).

(** [room.correctGuessers], read after [addMessage]'s initialisation. *)
Definition guessers (r : t) : list string := default [] (correctGuessers r).
End Room.
Abbreviation GameRoom := Room.t.

(** How a call ends: it returns [{success: true, ...}] or
    [{success: false, message}], or it throws (a [TypeError]; the promise of
    the [async] function is rejected). *)
Inductive Reply (A : Type) :=
| Success (payload : A)
| Failure (message : string)
| Throws.
Arguments Success {A} payload.
Arguments Failure {A} message.
Arguments Throws {A}.

(** The process state: the room registry, the timers that are armed, and the
    property names the registry object inherits. *)
Record Server := mkServer {
  roomsCache : gmap string GameRoom;
  intervals : list string;   (* live [setInterval] countdowns, by room id *)
  timeouts : list string;    (* pending [setTimeout] continuations of [endRound] *)
  inheritedKeys : list string (* what [roomsCache] inherits from its prototype *)
}.

Definition saveRooms (s : Server) (rooms : gmap string GameRoom) : Server :=
  mkServer rooms (intervals s) (timeouts s) (inheritedKeys s).

Definition emptyServer : Server := mkServer ∅ [] [] Js.objectPrototype.

(** [rooms[roomId]] where [rooms] has no room of that name.  It is
    [undefined], and [!rooms[roomId]] holds, unless [roomId] is a name that
    [rooms] inherits: then it is the inherited value (a function, or
    [Object.prototype] itself for "__proto__"), which passes the
    [!rooms[roomId]] guard and has no [players], [messages] or [gameStatus].
    Reading [.players.findIndex] or [.players.filter] of it throws. *)
Definition notARoom {A : Type} (roomId : string) (s : Server) : Reply A :=
  if decide (roomId ∈ inheritedKeys s) then Throws
  else Failure "Room not found".

(* ===================================================================== *)
(** ** Lobby operations *)
(* ===================================================================== *)

(** [createRoom(hostId, settings)]; [roomId] is what [generateRoomId()]
    returned and [now] the creation time. *)
Definition createRoom (roomId hostId : string) (settings : GameSettings)
    (now : Z) (s : Server) : Server * string :=
  let room :=
    Room.mk roomId hostId settings [] [] 0 (Settings.rounds settings) ""
            None waiting (Settings.roundDuration settings) (Some []) (Some now) in
  (saveRooms s (<[roomId := room]> (roomsCache s)), roomId).

(** [{...existing, ...player, isConnected: true}]: every key of [player]
    overwrites the stored one, an [avatar: null] included; only a key that is
    missing from [player] leaves the stored value. *)
Definition rejoin (player : User.t) (existing : GamePlayer) : GamePlayer :=
  Player.mk (User.id player) (User.name player)
            (match User.avatar player with
             | Js.missing => Player.avatar existing
             | sent => sent
             end)
            (Player.score existing) (Player.isDrawing existing) true.

(** [{...player, score: 0, isDrawing: false, isConnected: true}] *)
Definition newPlayer (player : User.t) : GamePlayer :=
  Player.mk (User.id player) (User.name player) (User.avatar player) 0 false true.

Definition joinRoom (roomId : string) (player : User.t) (s : Server)
    : Server * Reply GameRoom :=
  match roomsCache s !! roomId with
  | None => (s, notARoom roomId s)
  | Some room =>
      let existingPlayerIndex :=
        Js.findIndex (λ p, bool_decide (Player.id p = User.id player))
                     (Room.players room) in
      if decide (existingPlayerIndex ≠ (-1)%Z) then
        let room' :=
          Room.with_players room
            (alter (rejoin player) (Z.to_nat existingPlayerIndex)
                   (Room.players room)) in
        (saveRooms s (<[roomId := room']> (roomsCache s)), Success room')
      else if decide (Settings.maxPlayers (Room.settings room)
                      ≤ Z.of_nat (length (Room.players room)))%Z then
        (s, Failure "Room is full")
      else
        let room' :=
          Room.with_players room (Room.players room ++ [newPlayer player]) in
        (saveRooms s (<[roomId := room']> (roomsCache s)), Success room')
  end.

Definition leaveRoom (roomId playerId : string) (s : Server)
    : Server * Reply unit :=
  match roomsCache s !! roomId with
  | None => (s, notARoom roomId s)
  | Some room =>
      let playerIndex :=
        Js.findIndex (λ p, bool_decide (Player.id p = playerId))
                     (Room.players room) in
      if decide (playerIndex ≠ (-1)%Z) then
        let room :=
          Room.with_players room
            (alter (λ p, Player.with_isConnected p false)
                   (Z.to_nat playerIndex) (Room.players room)) in
        let connectedPlayers := Room.connectedPlayers room in
        let rooms :=
          match connectedPlayers with
          | [] => delete roomId (roomsCache s)
          | first :: _ =>
              if decide (playerId = Room.hostId room) then
                <[roomId := Room.with_hostId room (Player.id first)]> (roomsCache s)
              else <[roomId := room]> (roomsCache s)
          end in
        (saveRooms s rooms, Success tt)
      else (s, Failure "Player not found in room")
  end.

(* ===================================================================== *)
(** ** Guess evaluation *)
(* ===================================================================== *)

Definition guessedMarker : string := "🎯 Guessed the word!".
Definition alreadyGuessedMarker : string := "Already guessed".


(** [rooms["__proto__"].correctGuessers = []]: the assignment lands on
    [Object.prototype], and from then on every object, the registry
    included, inherits an (enumerable) [correctGuessers]. *)
Definition pollute (s : Server) : Server :=
  mkServer (roomsCache s) (intervals s) (timeouts s)
           ("correctGuessers" :: inheritedKeys s).

(** [addMessage(roomId, message)]; [now] is the time stamped on the message.
    For a name the registry inherits, the guard lets the call through:
    [correctGuessers] is initialised on the inherited value (which shows
    only when that value is [Object.prototype]), the guess is not evaluated
    as [gameStatus] is [undefined], and [.messages.push] throws. *)
Definition addMessage {engine : Js.Engine} (roomId : string)
    (message : Message.input) (now : Z) (s : Server) : Server * Reply bool :=
  match roomsCache s !! roomId with
  | None =>
      if decide (roomId ∈ inheritedKeys s) then
        (if decide (roomId = "__proto__" ∧ "correctGuessers" ∉ inheritedKeys s)
         then pollute s else s, Throws)
      else (s, Failure "Room not found")
  | Some room =>
      (* if (!room.correctGuessers) room.correctGuessers = [] *)
      let room := Room.with_correctGuessers room (Room.guessers room) in
      let author := User.id (Message.in_user message) in
      let '(room, text, isCorrect) :=
        if decide (Room.gameStatus room = playing
                   ∧ Some author ≠ Room.drawingPlayerId room
                   ∧ Js.trim (Js.toLowerCase (Message.in_text message))
                     = Js.trim (Js.toLowerCase (Room.currentWord room)))
        then
          if negb (Js.includes (Room.guessers room) author) then
            let room :=
              Room.with_correctGuessers room (Room.guessers room ++ [author]) in
            let playerIndex :=
              Js.findIndex (λ p, bool_decide (Player.id p = author))
                           (Room.players room) in
            let room :=
              if decide (playerIndex ≠ (-1)%Z) then
                Room.with_players room
                  (alter (λ p, Player.with_score p (Player.score p + 100)%Z)
                         (Z.to_nat playerIndex) (Room.players room))
              else room in
            (room, guessedMarker, true)
          else (room, alreadyGuessedMarker, false)
        else (room, Message.in_text message, false) in
      let stored :=
        Message.mk (Message.in_id message) (Message.in_user message)
                   text isCorrect now in
      let room := Room.with_messages room (Room.messages room ++ [stored]) in
      (saveRooms s (<[roomId := room]> (roomsCache s)), Success isCorrect)
  end.

(* ===================================================================== *)
(** ** Rounds and timers *)
(* ===================================================================== *)

(** Each of the calls below is given twice: as the stretches of code that run
    without interruption (up to an [await] on the file system, where other
    calls get their turn), and as the whole call, run to its end with
    nothing in between. *)

(** [startRoundTimer(roomId)], from its [await getRooms()] on: arms a
    once-per-second countdown when the room exists and is playing.  Nothing
    is looked up or cleared beforehand. *)
Definition startRoundTimer (roomId : string) (s : Server) : Server :=
  match roomsCache s !! roomId with
  | None => s
  | Some room =>
      if decide (Room.gameStatus room ≠ playing) then s
      else mkServer (roomsCache s) (intervals s ++ [roomId]) (timeouts s)
                    (inheritedKeys s)
  end.

(** [startGame(roomId)] up to its [await saveRooms(rooms)]: the checks and
    the update of the room.  [firstPlayerIndex] is
    [Math.floor(Math.random() * connectedPlayers.length)] and [randomWord] is
    [words[Math.floor(Math.random() * words.length)]].  An index outside the
    array, which [Math.random] cannot produce, makes
    [connectedPlayers[firstPlayerIndex].id] throw. *)
Definition startGameUpdate (roomId : string) (firstPlayerIndex : nat)
    (randomWord : string) (s : Server) : Server * Reply GameRoom :=
  match roomsCache s !! roomId with
  | None => (s, notARoom roomId s)
  | Some room =>
      if decide (length (Room.connectedPlayers room) < 2) then
        (s, Failure "Need at least 2 players to start")
      else
        let connectedPlayers := Room.connectedPlayers room in
        match connectedPlayers !! firstPlayerIndex with
        | None => (s, Throws)
        | Some first =>
            let firstPlayerId := Player.id first in
            let room' :=
              Room.mk (Room.id room) (Room.hostId room) (Room.settings room)
                ((λ p, Player.mk (Player.id p) (Player.name p)
                                 (Player.avatar p) 0
                                 (bool_decide (Player.id p = firstPlayerId))
                                 (Player.isConnected p))
                   <$> Room.players room)
                (Room.messages room)
                1 (Room.totalRounds room) randomWord (Some firstPlayerId)
                playing (Settings.roundDuration (Room.settings room))
                (Some []) (Room.createdAt room) in
            (saveRooms s (<[roomId := room']> (roomsCache s)), Success room')
        end
  end.

(** [startGame(roomId)], the whole call: once the room is saved,
    [startRoundTimer] is called. *)
Definition startGame (roomId : string) (firstPlayerIndex : nat)
    (randomWord : string) (s : Server) : Server * Reply GameRoom :=
  let updated := startGameUpdate roomId firstPlayerIndex randomWord s in
  match updated.2 with
  | Success _ => (startRoundTimer roomId updated.1, updated.2)
  | _ => updated
  end.

(** [endRound(roomId)] up to its [await saveRooms(rooms)]: the room goes to
    [roundEnd].  An inherited name passes the first guard and fails the
    second, its [gameStatus] being [undefined]. *)
Definition endRoundUpdate (roomId : string) (s : Server) : Server * Reply unit :=
  match roomsCache s !! roomId with
  | None =>
      (s, if decide (roomId ∈ inheritedKeys s)
          then Failure "Game is not in progress"
          else Failure "Room not found")
  | Some room =>
      if decide (Room.gameStatus room ≠ playing) then
        (s, Failure "Game is not in progress")
      else
        (saveRooms s (<[roomId := Room.with_gameStatus room roundEnd]>
                        (roomsCache s)),
         Success tt)
  end.

(** [setTimeout(async () => { ... }, 5000)] in [endRound]. *)
Definition setTimeout (roomId : string) (s : Server) : Server :=
  mkServer (roomsCache s) (intervals s) (timeouts s ++ [roomId])
           (inheritedKeys s).

(** [endRound(roomId)], the whole call up to the point where it returns: the
    room goes to [roundEnd] and the 5-second continuation is scheduled. *)
Definition endRound (roomId : string) (s : Server) : Server * Reply unit :=
  let updated := endRoundUpdate roomId s in
  match updated.2 with
  | Success _ => (setTimeout roomId updated.1, updated.2)
  | _ => updated
  end.

(** The callback [endRound] hands to [setTimeout(.., 5000)], up to its
    [await saveRooms(currentRooms)]: end the game, fall back to the lobby, or
    set up the next round.  The result says whether [startRoundTimer] is
    called afterwards.  (For an inherited name, and for a next index outside
    the array, the callback throws; nothing has changed by then.) *)
Definition endRoundTimeoutUpdate (roomId : string) (randomWord : string)
    (s : Server) : Server * bool :=
  match roomsCache s !! roomId with
  | None => (s, false)
  | Some room =>
      if decide (Room.totalRounds room ≤ Room.currentRound room)%Z then
        (saveRooms s (<[roomId := Room.with_gameStatus room gameEnd]>
                        (roomsCache s)), false)
      else
        let connectedPlayers := Room.connectedPlayers room in
        if decide (length connectedPlayers < 2) then
          (saveRooms s (<[roomId := Room.with_gameStatus room waiting]>
                          (roomsCache s)), false)
        else
          let currentDrawingIndex :=
            Js.findIndex
              (λ p, bool_decide (Some (Player.id p) = Room.drawingPlayerId room))
              connectedPlayers in
          let nextDrawingIndex :=
            Z.rem (currentDrawingIndex + 1) (Z.of_nat (length connectedPlayers)) in
          match Js.at_ connectedPlayers nextDrawingIndex with
          | None => (s, false)
          | Some next =>
              let nextDrawingId := Player.id next in
              let room' :=
                Room.mk (Room.id room) (Room.hostId room) (Room.settings room)
                  ((λ p, Player.with_isDrawing p
                           (bool_decide (Player.id p = nextDrawingId)))
                     <$> Room.players room)
                  (Room.messages room)
                  (Room.currentRound room + 1) (Room.totalRounds room)
                  randomWord (Some nextDrawingId) playing
                  (Settings.roundDuration (Room.settings room))
                  (Some []) (Room.createdAt room) in
              (saveRooms s (<[roomId := room']> (roomsCache s)), true)
          end
  end.

(** The callback of [setTimeout], the whole of it. *)
Definition endRoundTimeout (roomId : string) (randomWord : string)
    (s : Server) : Server :=
  let updated := endRoundTimeoutUpdate roomId randomWord s in
  if updated.2 then startRoundTimer roomId updated.1 else updated.1.

(** The [k]-th pending timeout has fired: it leaves the timer queue. *)
Definition timeoutFired (k : nat) (s : Server) : Server :=
  mkServer (roomsCache s) (intervals s) (delete k (timeouts s))
           (inheritedKeys s).

(** The [k]-th pending timeout fires and its callback runs. *)
Definition fireTimeout (k : nat) (randomWord : string) (s : Server) : Server :=
  match timeouts s !! k with
  | None => s
  | Some roomId => endRoundTimeout roomId randomWord (timeoutFired k s)
  end.

(** [clearInterval(countdownInterval)] for the [k]-th live countdown. *)
Definition clearInterval (k : nat) (s : Server) : Server :=
  mkServer (roomsCache s) (delete k (intervals s)) (timeouts s)
           (inheritedKeys s).

(** One firing of the callback [startRoundTimer] hands to
    [setInterval(.., 1000)], for the [k]-th live countdown, up to its
    [await endRound(roomId)].  The result names the room whose [endRound] is
    called, if the time is up. *)
Definition countdownTickUpdate (k : nat) (s : Server) : Server * option string :=
  match intervals s !! k with
  | None => (s, None)
  | Some roomId =>
      match roomsCache s !! roomId with
      | None => (clearInterval k s, None)
      | Some room =>
          if decide (Room.gameStatus room ≠ playing) then
            (clearInterval k s, None)
          else
            let room :=
              Room.with_roundTimeLeft room (Room.roundTimeLeft room - 1) in
            let s := saveRooms s (<[roomId := room]> (roomsCache s)) in
            if decide (Room.roundTimeLeft room ≤ 0)%Z then
              (clearInterval k s, Some roomId)
            else (s, None)
      end
  end.

(** One firing of the countdown, the whole of it. *)
Definition countdownTick (k : nat) (s : Server) : Server :=
  let updated := countdownTickUpdate k s in
  match updated.2 with
  | Some roomId => (endRound roomId updated.1).1
  | None => updated.1
  end.

(* ===================================================================== *)
(** ** The stale-room sweep *)
(* ===================================================================== *)

(** [(now - createdAt) / (1000 * 60 * 60) > 6], on integer milliseconds. *)
Definition olderThanSixHours (now createdAt : Z) : Prop :=
  (6 * (1000 * 60 * 60) < now - createdAt)%Z.

#[global] Instance olderThanSixHours_dec now createdAt :
  Decision (olderThanSixHours now createdAt).
Proof. unfold olderThanSixHours. apply _. Defined.

(** The body of the [for (const roomId in rooms)] loop. *)
Definition cleanupRoom (now : Z) (roomId : string) (room : GameRoom)
    (rooms : gmap string GameRoom) : gmap string GameRoom :=
  if decide (length (Room.connectedPlayers room) = 0) then delete roomId rooms
  else
    match Room.createdAt room with
    | Some createdAt =>
        if decide (olderThanSixHours now createdAt) then delete roomId rooms
        else rooms
    | None => rooms
    end.

Definition cleanupRooms (now : Z) (s : Server) : Server :=
  saveRooms s (map_fold (cleanupRoom now) (roomsCache s) (roomsCache s)).

(* ===================================================================== *)
(** ** The server as a transition system *)
(* ===================================================================== *)

(** Everything that can happen to the server: a client command, a timer
    callback, or a sweep. *)
Inductive Event :=
| CreateRoom (roomId hostId : string) (settings : GameSettings) (now : Z)
| JoinRoom (roomId : string) (player : User.t)
| LeaveRoom (roomId playerId : string)
| SendMessage (roomId : string) (message : Message.input) (now : Z)
| StartGame (roomId : string) (firstPlayerIndex : nat) (randomWord : string)
| EndRound (roomId : string)
| CountdownTick (k : nat)
| RoundDelayElapsed (k : nat) (randomWord : string)
| CleanupRooms (now : Z).

Definition run {engine : Js.Engine} (e : Event) (s : Server) : Server :=
  match e with
  | CreateRoom roomId hostId settings now =>
      (createRoom roomId hostId settings now s).1
  | JoinRoom roomId player => (joinRoom roomId player s).1
  | LeaveRoom roomId playerId => (leaveRoom roomId playerId s).1
  | SendMessage roomId message now => (addMessage roomId message now s).1
  | StartGame roomId firstPlayerIndex randomWord =>
      (startGame roomId firstPlayerIndex randomWord s).1
  | EndRound roomId => (endRound roomId s).1
  | CountdownTick k => countdownTick k s
  | RoundDelayElapsed k randomWord => fireTimeout k randomWord s
  | CleanupRooms now => cleanupRooms now s
  end.

(** States reachable from a fresh process by events that [allowed] admits. *)
Inductive reachable {engine : Js.Engine} (allowed : Server → Event → Prop)
    : Server → Prop :=
| reachable_init : reachable allowed emptyServer
| reachable_step s e :
    reachable allowed s → allowed s e → reachable allowed (run e s).

Definition runAll {engine : Js.Engine} (es : list Event) (s : Server)
    : Server :=
  foldl (λ s e, run e s) s es.

(** Every event of the trace [es], run from [s], is admitted by [allowed] in
    the state it is run in. *)
Fixpoint traceAllowed {engine : Js.Engine} (allowed : Server → Event → Prop)
    (es : list Event) (s : Server) : Prop :=
  match es with
  | [] => True
  | e :: es => allowed s e ∧ traceAllowed allowed es (run e s)
  end.

(* ===================================================================== *)
(** ** Vocabulary of the statements *)
(* ===================================================================== *)



(** A room the sweep is meant to evict: nobody is connected, or the room has
    a creation time and is older than six hours. *)
Definition expired (now : Z) (room : GameRoom) : Prop :=
  length (Room.connectedPlayers room) = 0
  ∨ match Room.createdAt room with
    | Some createdAt => olderThanSixHours now createdAt
    | None => False
    end.

#[global] Instance expired_dec now room : Decision (expired now room).
Proof. unfold expired. destruct (Room.createdAt room); apply _. Defined.

(** No restriction on the events. *)
Definition anyEvent : Server → Event → Prop := λ _ _, True.

(** The event is the current drawer of a playing room calling [leaveRoom]. *)
Definition drawerLeaves (s : Server) (e : Event) : Prop :=
  match e with
  | LeaveRoom roomId playerId =>
      ∃ room, roomsCache s !! roomId = Some room
              ∧ Room.gameStatus room = playing
              ∧ Room.drawingPlayerId room = Some playerId
  | _ => False
  end.

(** [allowed] never lets the drawer of a playing room leave. *)
Definition drawerStays (allowed : Server → Event → Prop) : Prop :=
  ∀ s e, allowed s e → ¬ drawerLeaves s e.

(** At most one entry of [room.players] has [isDrawing] set. *)
Definition atMostOneDrawing (room : GameRoom) : Prop :=
  ∀ i j p q,
    Room.players room !! i = Some p → Room.players room !! j = Some q →
    Player.isDrawing p = true → Player.isDrawing q = true → i = j.

(** What every operation maintains of a room.  The last field is maintained
    only while [stays] holds, that is, while no drawer leaves mid-round. *)
Record roomInvariant (stays : Prop) (room : GameRoom) : Prop := {
  inv_rounds : Room.totalRounds room = Settings.rounds (Room.settings room);
  inv_ids : NoDup (Player.id <$> Room.players room);
  inv_drawer :
    ∀ p, p ∈ Room.players room → Player.isDrawing p = true →
         Room.drawingPlayerId room = Some (Player.id p);
  inv_guessers :
    ∀ d, Room.drawingPlayerId room = Some d → d ∉ Room.guessers room;
  inv_connected :
    stays → Room.gameStatus room = playing →
    ∀ p, p ∈ Room.players room → Player.isDrawing p = true →
         Player.isConnected p = true
}.

Definition roomsInvariant (stays : Prop) (rooms : gmap string GameRoom) : Prop :=
  ∀ roomId room, rooms !! roomId = Some room → roomInvariant stays room.

(** Every flagged player of a playing room is connected. *)
Definition drawerConnected (room : GameRoom) : Prop :=
  Room.gameStatus room = playing →
  ∀ p, p ∈ Room.players room → Player.isDrawing p = true →
       Player.isConnected p = true.

(** Every event except the drawer of a playing room leaving. *)
Definition drawerNeverLeaves : Server → Event → Prop :=
  λ s e, ¬ drawerLeaves s e.

(** The ids of the connected players, in join order. *)
Definition connectedIds (room : GameRoom) : list string :=
  Player.id <$> Room.connectedPlayers room.

(** One round-end: [endRound] is called and the continuation it schedules
    fires, with [randomWord] as the word it draws. *)
Definition roundEndAndAdvance (roomId : string) (s : Server)
    (randomWord : string) : Server :=
  fireTimeout (length (timeouts s)) randomWord (endRound roomId s).1.

(** Consecutive round-ends, one per drawn word, with nothing in between. *)
Definition playRounds (roomId : string) (words : list string) (s : Server)
    : Server :=
  foldl (roundEndAndAdvance roomId) s words.

(** How many entries of a timer list were armed for [roomId]. *)
Definition armedFor (roomId : string) (timers : list string) : nat :=
  length (filter (λ r, r = roomId) timers).

(** What an operation may do to the two timer lists: nothing, or arm one
    more entry for [roomId] in one of them. *)
Definition armsAtMost (roomId : string) (s s' : Server) : Prop :=
  (intervals s' = intervals s ∨ intervals s' = intervals s ++ [roomId])
  ∧ timeouts s' = timeouts s.

(* ===================================================================== *)
(** ** Calls that overlap *)
(* ===================================================================== *)

(** The events above run each call to its end.  In the server a call is
    suspended at every [await], and where it waits for the file system
    ([getWords()] reads a file, [saveRooms()] writes one) other calls run
    before it goes on.  [createRoom], [joinRoom], [leaveRoom], [addMessage]
    and [cleanupRooms] read and change the registry in one stretch and only
    return after their [saveRooms], so for them nothing is lost.  The
    others come in several stretches:
    - [startGame] waits for [getWords()] (l. 299), updates the room, waits
      for [saveRooms()] (l. 333), and calls [startRoundTimer], which arms
      the countdown after an [await] of its own (l. 344);
    - the callback of a countdown reads the registry with [getRooms()],
      which needs no file, so the stretch that decrements the clock (and
      clears the countdown when the time is up) runs in the turn in which
      the callback fired; it then calls [endRound], which waits for
      [getWords()] (l. 388), sets [roundEnd], waits for [saveRooms()]
      (l. 400) and calls [setTimeout];
    - the callback of that timeout likewise runs its update in the turn in
      which it fired; the next-round branch waits for [saveRooms()]
      (l. 443) and calls [startRoundTimer].

    What is left to do of a call suspended between two stretches, with the
    room id it holds: *)
Inductive Suspended :=
| StartGameReading (roomId : string)  (* [startGame], before the update *)
| TimerStarting (roomId : string)     (* room updated, countdown not yet armed *)
| EndRoundReading (roomId : string)   (* [endRound] called, room not yet ended *)
| EndRoundSaving (roomId : string).   (* [roundEnd] set, timeout not yet set *)

#[global] Instance Suspended_eq_dec : EqDecision Suspended.
Proof. solve_decision. Defined.


(** The server together with the calls that are under way. *)
Record Process := mkProcess {
  server : Server;
  suspended : list Suspended
}.

Definition freshProcess : Process := mkProcess emptyServer [].

(** A call that is over after one stretch. *)
Definition singleStretch (e : Event) : bool :=
  match e with
  | CreateRoom _ _ _ _ | JoinRoom _ _ | LeaveRoom _ _ | SendMessage _ _ _
  | CleanupRooms _ => true
  | StartGame _ _ _ | EndRound _ | CountdownTick _ | RoundDelayElapsed _ _ =>
      false
  end.

(** One stretch of code that runs without interruption. *)
Inductive Action :=
| Command (e : Event)             (* a whole call of [singleStretch] *)
| CallStartGame (roomId : string) (* the [startGame] packet arrives *)
| ResumeStartGame (k : nat) (firstPlayerIndex : nat) (randomWord : string)
| ResumeStartRoundTimer (k : nat)
| Tick (k : nat)
| ResumeEndRound (k : nat)
| ResumeSetTimeout (k : nat)
| DelayElapsed (k : nat) (randomWord : string).

(** [Resume.. k] takes up the [k]-th suspended call, if it is of that kind;
    [Tick k] and [DelayElapsed k] are the [k]-th live countdown and the
    [k]-th pending timeout firing. *)
Definition step {engine : Js.Engine} (a : Action) (p : Process) : Process :=
  let s := server p in
  match a with
  | Command e =>
      if singleStretch e then mkProcess (run e s) (suspended p) else p
  | CallStartGame roomId =>
      mkProcess s (suspended p ++ [StartGameReading roomId])
  | ResumeStartGame k firstPlayerIndex randomWord =>
      match suspended p !! k with
      | Some (StartGameReading roomId) =>
          let updated := startGameUpdate roomId firstPlayerIndex randomWord s in
          mkProcess updated.1
            (delete k (suspended p)
             ++ match updated.2 with
                | Success _ => [TimerStarting roomId]
                | _ => []
                end)
      | _ => p
      end
  | ResumeStartRoundTimer k =>
      match suspended p !! k with
      | Some (TimerStarting roomId) =>
          mkProcess (startRoundTimer roomId s) (delete k (suspended p))
      | _ => p
      end
  | Tick k =>
      let updated := countdownTickUpdate k s in
      mkProcess updated.1
        (suspended p
         ++ match updated.2 with
            | Some roomId => [EndRoundReading roomId]
            | None => []
            end)
  | ResumeEndRound k =>
      match suspended p !! k with
      | Some (EndRoundReading roomId) =>
          let updated := endRoundUpdate roomId s in
          mkProcess updated.1
            (delete k (suspended p)
             ++ match updated.2 with
                | Success _ => [EndRoundSaving roomId]
                | _ => []
                end)
      | _ => p
      end
  | ResumeSetTimeout k =>
      match suspended p !! k with
      | Some (EndRoundSaving roomId) =>
          mkProcess (setTimeout roomId s) (delete k (suspended p))
      | _ => p
      end
  | DelayElapsed k randomWord =>
      match timeouts s !! k with
      | Some roomId =>
          let updated :=
            endRoundTimeoutUpdate roomId randomWord (timeoutFired k s) in
          mkProcess updated.1
            (suspended p ++ if updated.2 then [TimerStarting roomId] else [])
      | None => p
      end
  end.

(** The processes reachable from a fresh one by stretches that [allowed]
    admits, in any order. *)
Inductive interleaved {engine : Js.Engine} (allowed : Process → Action → Prop)
    : Process → Prop :=
| interleaved_init : interleaved allowed freshProcess
| interleaved_step p a :
    interleaved allowed p → allowed p a → interleaved allowed (step a p).

Definition stepAll {engine : Js.Engine} (actions : list Action) (p : Process)
    : Process :=
  foldl (λ p a, step a p) p actions.

Fixpoint scheduleAllowed {engine : Js.Engine}
    (allowed : Process → Action → Prop) (actions : list Action) (p : Process)
    : Prop :=
  match actions with
  | [] => True
  | a :: actions => allowed p a ∧ scheduleAllowed allowed actions (step a p)
  end.

(** No restriction on the schedule. *)
Definition anyAction : Process → Action → Prop := λ _ _, True.








(** The stretches of one whole call, to be run one after the other in a
    process with no call under way.  ([EndRound] is no packet of the
    server's; it stands for [endRound] entered out of the blue.) *)
Definition stretches (e : Event) : list Action :=
  match e with
  | StartGame roomId firstPlayerIndex randomWord =>
      [ CallStartGame roomId; ResumeStartGame 0 firstPlayerIndex randomWord;
        ResumeStartRoundTimer 0 ]
  | CountdownTick k => [ Tick k; ResumeEndRound 0; ResumeSetTimeout 0 ]
  | RoundDelayElapsed k randomWord =>
      [ DelayElapsed k randomWord; ResumeStartRoundTimer 0 ]
  | EndRound _ => []
  | e => [ Command e ]
  end.

(** No [endRound] out of the blue. *)
Definition noEndRound : Server → Event → Prop :=
  λ _ e, match e with EndRound _ => False | _ => True end.

(** [allowed] never lets the drawer of a playing room leave. *)
Definition drawerStaysOn (allowed : Process → Action → Prop) : Prop :=
  ∀ p e, allowed p (Command e) → ¬ drawerLeaves (server p) e.

(* ===================================================================== *)
(** ** An engine for the sample runs *)
(* ===================================================================== *)

(** The samples need some engine.  This one trims the white space and line
    terminators of ECMAScript (TAB, LF, VT, FF, CR, SPACE, U+00A0, U+1680,
    U+2000 to U+200A, U+2028, U+2029, U+202F, U+205F, U+3000, U+FEFF, in
    UTF-8) and lower-cases the letters of ASCII and Latin-1.  No statement
    about the server is tied to it. *)
Module Latin1.

Definition bytes (s : string) : list nat :=
  nat_of_ascii <$> list_ascii_of_string s.

Definition text (l : list nat) : string :=
  string_of_list_ascii (ascii_of_nat <$> l).

Definition isUpper (a : nat) : bool := (65 <=? a) && (a <=? 90).

(** The second byte of U+00C0 to U+00DE (first byte 195), without the
    multiplication sign U+00D7. *)
Definition isUpperLatin1 (b : nat) : bool :=
  (128 <=? b) && (b <=? 158) && negb (b =? 151).

Fixpoint lower (l : list nat) : list nat :=
  match l with
  | [] => []
  | a :: rest =>
      if isUpper a then (a + 32) :: lower rest
      else
        match rest with
        | b :: rest' =>
            if (a =? 195) && isUpperLatin1 b
            then a :: (b + 32) :: lower rest'
            else a :: lower rest
        | [] => [a]
        end
  end.

Definition toLowerCase (s : string) : string := text (lower (bytes s)).

Definition space1 (a : nat) : bool :=
  ((9 <=? a) && (a <=? 13)) || (a =? 32).

Definition space2 (a b : nat) : bool := (a =? 194) && (b =? 160).

Definition space3 (a b c : nat) : bool :=
  ((a =? 225) && (b =? 154) && (c =? 128))
  || ((a =? 226) && (b =? 128)
      && (((128 <=? c) && (c <=? 138)) || (c =? 168) || (c =? 169)
          || (c =? 175)))
  || ((a =? 226) && (b =? 129) && (c =? 159))
  || ((a =? 227) && (b =? 128) && (c =? 128))
  || ((a =? 239) && (b =? 187) && (c =? 191)).

(** Drops the white space at the front of [l]; with [forward = false], [l]
    is a text written back to front. *)
Fixpoint dropSpace (forward : bool) (l : list nat) : list nat :=
  match l with
  | [] => []
  | a :: rest =>
      if space1 a then dropSpace forward rest
      else
        match rest with
        | b :: rest2 =>
            if (if forward then space2 a b else space2 b a)
            then dropSpace forward rest2
            else
              match rest2 with
              | c :: rest3 =>
                  if (if forward then space3 a b c else space3 c b a)
                  then dropSpace forward rest3
                  else l
              | [] => l
              end
        | [] => l
        end
  end.

Definition trim (s : string) : string :=
  text (rev (dropSpace false (rev (dropSpace true (bytes s))))).

End Latin1.

(* ===================================================================== *)
(** ** A sample room *)
(* ===================================================================== *)

Module Sample.

#[local] Open Scope Z_scope.

#[global] Instance engine : Js.Engine :=
  {| Js.toLowerCase := Latin1.toLowerCase; Js.trim := Latin1.trim |}.

Definition settings : GameSettings := Settings.mk 4 60 3 5 2.

Definition alice : User.t := User.mk "alice" "Alice" Js.missing.
Definition bob : User.t := User.mk "bob" "Bob" Js.missing.
Definition carol : User.t := User.mk "carol" "Carol" Js.missing.
Definition mallory : User.t := User.mk "mallory" "Mallory" Js.missing.

(** Round 1 of a three-player game: Alice draws "apple", Carol has already
    guessed it. *)
Definition room : GameRoom :=
  Room.mk "123456" "alice" settings
    [ Player.mk "alice" "Alice" Js.missing 0 true true;
      Player.mk "bob" "Bob" Js.missing 0 false true;
      Player.mk "carol" "Carol" Js.missing 100 false true ]
    []
    1 3 "apple" (Some "alice") playing 42 (Some ["carol"]) (Some 1000).

Definition server : Server := mkServer {[ "123456" := room ]} ["123456"] [] Js.objectPrototype.

Definition bobGuess : Message.input := Message.mkInput "m1" bob "  Apple ".

(** A lobby with a single connected player. *)
Definition lobby : GameRoom :=
  Room.mk "654321" "alice" settings
    [ Player.mk "alice" "Alice" Js.missing 0 false true;
      Player.mk "bob" "Bob" Js.missing 0 false false ]
    []
    0 3 "" None waiting 60 (Some []) (Some 1000).

Definition lobbyServer : Server := mkServer {[ "654321" := lobby ]} [] [] Js.objectPrototype.

(** Alice creates a room, Bob and Carol join, the game starts and the draw
    makes Alice the first drawer. *)
Definition gameTrace : list Event :=
  [ CreateRoom "123456" "alice" settings 1000;
    JoinRoom "123456" alice;
    JoinRoom "123456" bob;
    JoinRoom "123456" carol;
    StartGame "123456" 0 "apple" ].

Definition started : Server := runAll gameTrace emptyServer.

Definition startedRoom : GameRoom :=
  Room.mk "123456" "alice" settings
    [ Player.mk "alice" "Alice" Js.missing 0 true true;
      Player.mk "bob" "Bob" Js.missing 0 false true;
      Player.mk "carol" "Carol" Js.missing 0 false true ]
    []
    1 3 "apple" (Some "alice") playing 60 (Some []) (Some 1000).

(** A two-round game between Alice and Bob; Alice draws first. *)
Definition shortGame : Server :=
  runAll [ CreateRoom "222222" "alice" (Settings.mk 4 60 2 5 2) 1000;
           JoinRoom "222222" alice;
           JoinRoom "222222" bob;
           StartGame "222222" 0 "apple" ] emptyServer.

Definition shortGameRoom : GameRoom :=
  Room.mk "222222" "alice" (Settings.mk 4 60 2 5 2)
    [ Player.mk "alice" "Alice" Js.missing 0 true true;
      Player.mk "bob" "Bob" Js.missing 0 false true ]
    []
    1 2 "apple" (Some "alice") playing 60 (Some []) (Some 1000).

(** The same two-round game with two-second rounds, driven by the timers
    alone: each round is counted down to zero and its continuation fires. *)
Definition timedGame : Server :=
  runAll [ CreateRoom "333333" "alice" (Settings.mk 4 2 2 5 2) 1000;
           JoinRoom "333333" alice;
           JoinRoom "333333" bob;
           StartGame "333333" 0 "apple";
           CountdownTick 0; CountdownTick 0; RoundDelayElapsed 0 "dog";
           CountdownTick 0; CountdownTick 0; RoundDelayElapsed 0 "cat" ]
         emptyServer.

(** A five-round game between Alice, Bob and Carol; Alice draws first. *)
Definition longGameTrace : list Event :=
  [ CreateRoom "555555" "alice" (Settings.mk 4 60 5 5 2) 1000;
    JoinRoom "555555" alice;
    JoinRoom "555555" bob;
    JoinRoom "555555" carol;
    StartGame "555555" 0 "apple" ].

Definition longGame : Server := runAll longGameTrace emptyServer.

Definition longGameRoom : GameRoom :=
  Room.mk "555555" "alice" (Settings.mk 4 60 5 5 2)
    [ Player.mk "alice" "Alice" Js.missing 0 true true;
      Player.mk "bob" "Bob" Js.missing 0 false true;
      Player.mk "carol" "Carol" Js.missing 0 false true ]
    []
    1 5 "apple" (Some "alice") playing 60 (Some []) (Some 1000).

(** ... and the host presses "start" a second time. *)
Definition startedTwice : Server := run (StartGame "123456" 1 "dog") started.

(** ... the round is ended, so its continuation is pending. *)
Definition roundEnded : Server := run (EndRound "123456") started.

(** ... and then Alice, who is drawing, leaves. *)
Definition drawerLeft : Server := run (LeaveRoom "123456" "alice") started.

(** ... and the round is ended after Alice left. *)
Definition drawerLeftRoundEnded : Server := run (EndRound "123456") drawerLeft.

Definition drawerLeftRoom : GameRoom :=
  Room.mk "123456" "bob" settings
    [ Player.mk "alice" "Alice" Js.missing 0 true false;
      Player.mk "bob" "Bob" Js.missing 0 false true;
      Player.mk "carol" "Carol" Js.missing 0 false true ]
    []
    1 3 "apple" (Some "alice") playing 60 (Some []) (Some 1000).

End Sample.

(* ===================================================================== *)
(** ** More sample rooms *)
(* ===================================================================== *)

Module Demo.

#[local] Open Scope Z_scope.

(** The sample room with room for three players only: it is full. *)
Definition fullRoom : GameRoom :=
  Room.mk "123456" "alice" (Settings.mk 3 60 3 5 2)
    [ Player.mk "alice" "Alice" Js.missing 0 true true;
      Player.mk "bob" "Bob" Js.missing 0 false true;
      Player.mk "carol" "Carol" Js.missing 100 false true ]
    []
    1 3 "apple" (Some "alice") playing 42 (Some ["carol"]) (Some 1000).

Definition fullServer : Server := mkServer {[ "123456" := fullRoom ]} ["123456"] []
           Js.objectPrototype.

(** Carol comes back under a new display name. *)
Definition carolAgain : User.t := User.mk "carol" "Caz" Js.missing.




(** The sample room in the middle of its last round: Bob has 100 points. *)
Definition lateRoom : GameRoom :=
  Room.mk "123456" "alice" Sample.settings
    [ Player.mk "alice" "Alice" Js.missing 0 false true;
      Player.mk "bob" "Bob" Js.missing 100 false true;
      Player.mk "carol" "Carol" Js.missing 200 true true ]
    []
    3 3 "piano" (Some "carol") playing 7 (Some ["bob"]) (Some 1000).

Definition lateServer : Server := mkServer {[ "123456" := lateRoom ]} ["123456"] []
           Js.objectPrototype.

(** The sample game after Bob guessed the word (twice) and Carol left. *)
Definition playedTrace : list Event :=
  Sample.gameTrace
  ++ [ SendMessage "123456" Sample.bobGuess 2000;
       SendMessage "123456" Sample.bobGuess 2001;
       LeaveRoom "123456" "carol" ].

Definition played : Server := runAll playedTrace emptyServer.

Definition playedRoom : GameRoom :=
  Room.mk "123456" "alice" Sample.settings
    [ Player.mk "alice" "Alice" Js.missing 0 true true;
      Player.mk "bob" "Bob" Js.missing 100 false true;
      Player.mk "carol" "Carol" Js.missing 0 false false ]
    [ Message.mk "m1" Sample.bob guessedMarker true 2000;
      Message.mk "m1" Sample.bob alreadyGuessedMarker false 2001 ]
    1 3 "apple" (Some "alice") playing 60 (Some ["bob"]) (Some 1000).


(** The sample room is set up, as the server runs it. *)
Definition lobbyActions : list Action :=
  [ Command (CreateRoom "123456" "alice" Sample.settings 1000);
    Command (JoinRoom "123456" Sample.alice);
    Command (JoinRoom "123456" Sample.bob);
    Command (JoinRoom "123456" Sample.carol) ].





(** Two [startGame] packets for the room arrive before either call has read
    its words; both calls update the room and both arm a countdown. *)
Definition overlappingStarts : Process :=
  stepAll (lobbyActions
           ++ [ CallStartGame "123456"; CallStartGame "123456";
                ResumeStartGame 0 0 "apple"; ResumeStartGame 0 1 "dog";
                ResumeStartRoundTimer 0; ResumeStartRoundTimer 0 ])
          freshProcess.

End Demo.

(* ===================================================================== *)
(** ** The [createRoom] socket handler *)
(* ===================================================================== *)



(* ===================================================================== *)
(** ** Further vocabulary *)
(* ===================================================================== *)

(** [n] consecutive firings of the [k]-th countdown. *)
Definition ticks (n k : nat) (s : Server) : Server :=
  Nat.iter n (countdownTick k) s.

(** The event creates (or overwrites) the room [roomId]. *)
Definition recreates (e : Event) (roomId : string) : Prop :=
  match e with
  | CreateRoom created _ _ _ => created = roomId
  | _ => False
  end.

(** [room'] is a later state of [room]: same identity and configuration, the
    message log and the join order only grown at the end. *)
Definition extends (room room' : GameRoom) : Prop :=
  Room.id room' = Room.id room
  ∧ Room.settings room' = Room.settings room
  ∧ Room.totalRounds room' = Room.totalRounds room
  ∧ Room.createdAt room' = Room.createdAt room
  ∧ Room.messages room `prefix_of` Room.messages room'
  ∧ (Player.id <$> Room.players room) `prefix_of` (Player.id <$> Room.players room').

(** The most a player can have scored: 100 for each earlier round of the
    game, and 100 more once the player is among the round's
    [correctGuessers]. *)
Definition scoreBound (room : GameRoom) (p : GamePlayer) : Z :=
  (100 * Z.max 0 (Room.currentRound room - 1)
   + (if bool_decide (Player.id p ∈ Room.guessers room) then 100 else 0))%Z.

(** Further facts every operation maintains of a room. *)
Record roomShape (room : GameRoom) : Prop := {
  shape_capacity :
    (Z.of_nat (length (Room.players room))
     ≤ Z.max 0 (Settings.maxPlayers (Room.settings room)))%Z;
  shape_round :
    (0 ≤ Room.currentRound room ≤ Z.max 1 (Room.totalRounds room))%Z;
  shape_unstarted :
    Room.currentRound room = 0%Z →
    Room.gameStatus room ≠ playing ∧ Room.gameStatus room ≠ roundEnd
    ∧ Room.drawingPlayerId room = None ∧ Room.currentWord room = ""
    ∧ Room.guessers room = [];
  shape_drawer :
    (1 ≤ Room.currentRound room)%Z →
    ∃ d, Room.drawingPlayerId room = Some d
         ∧ d ∈ Player.id <$> Room.players room;
  shape_scores :
    ∀ p, p ∈ Room.players room → (0 ≤ Player.score p ≤ scoreBound room p)%Z;
  shape_guessers : NoDup (Room.guessers room);
  shape_connected :
    Room.players room ≠ [] → Room.connectedPlayers room ≠ [];
  shape_log :
    ∀ m, m ∈ Room.messages room → Message.isCorrect m = true →
         Message.text m = guessedMarker
}.

Definition roomsShape (rooms : gmap string GameRoom) : Prop :=
  ∀ roomId room, rooms !! roomId = Some room →
                 Room.id room = roomId ∧ roomShape room.

(** Every room of [rooms] that is still in [rooms'] is there as a later
    state of itself. *)
Definition roomsExtend (rooms rooms' : gmap string GameRoom) : Prop :=
  ∀ roomId room room',
    rooms !! roomId = Some room → rooms' !! roomId = Some room' →
    extends room room'.

(* ===================================================================== *)
(** ** Proof automation *)
(* ===================================================================== *)


(** Exposes the timer lists of a state built from record operations. *)
Ltac timers_simpl :=
  unfold clearInterval, timeoutFired, setTimeout, saveRooms in *;
  cbn [intervals timeouts roomsCache inheritedKeys fst snd] in *.

(* ===================================================================== *)
(** ** The whole calls, written out *)
(* ===================================================================== *)

Lemma startGame_eq roomId firstPlayerIndex randomWord s :
  startGame roomId firstPlayerIndex randomWord s
  = match roomsCache s !! roomId with
    | None => (s, notARoom roomId s)
    | Some room =>
        if decide (length (Room.connectedPlayers room) < 2) then
          (s, Failure "Need at least 2 players to start")
        else
          match Room.connectedPlayers room !! firstPlayerIndex with
          | None => (s, Throws)
          | Some first =>
              let room' :=
                Room.mk (Room.id room) (Room.hostId room) (Room.settings room)
                  ((λ p, Player.mk (Player.id p) (Player.name p)
                                   (Player.avatar p) 0
                                   (bool_decide (Player.id p = Player.id first))
                                   (Player.isConnected p))
                     <$> Room.players room)
                  (Room.messages room)
                  1 (Room.totalRounds room) randomWord (Some (Player.id first))
                  playing (Settings.roundDuration (Room.settings room))
                  (Some []) (Room.createdAt room) in
              (startRoundTimer roomId
                 (saveRooms s (<[roomId := room']> (roomsCache s))),
               Success room')
          end
    end.
Proof.
  unfold startGame, startGameUpdate, notARoom.
  destruct (roomsCache s !! roomId); [|by case_decide].
  case_decide; [done|]. by destruct (_ !! firstPlayerIndex).
Qed.

Lemma endRound_eq roomId s :
  endRound roomId s
  = match roomsCache s !! roomId with
    | None =>
        (s, if decide (roomId ∈ inheritedKeys s)
            then Failure "Game is not in progress"
            else Failure "Room not found")
    | Some room =>
        if decide (Room.gameStatus room ≠ playing) then
          (s, Failure "Game is not in progress")
        else
          (mkServer (<[roomId := Room.with_gameStatus room roundEnd]> (roomsCache s))
                    (intervals s) (timeouts s ++ [roomId]) (inheritedKeys s),
           Success tt)
    end.
Proof.
  unfold endRound, endRoundUpdate.
  destruct (roomsCache s !! roomId); [|by case_decide]. by case_decide.
Qed.

Lemma endRoundTimeout_eq roomId randomWord s :
  endRoundTimeout roomId randomWord s
  = match roomsCache s !! roomId with
    | None => s
    | Some room =>
        if decide (Room.totalRounds room ≤ Room.currentRound room)%Z then
          saveRooms s (<[roomId := Room.with_gameStatus room gameEnd]> (roomsCache s))
        else
          let connectedPlayers := Room.connectedPlayers room in
          if decide (length connectedPlayers < 2) then
            saveRooms s (<[roomId := Room.with_gameStatus room waiting]> (roomsCache s))
          else
            let currentDrawingIndex :=
              Js.findIndex
                (λ p, bool_decide (Some (Player.id p) = Room.drawingPlayerId room))
                connectedPlayers in
            let nextDrawingIndex :=
              Z.rem (currentDrawingIndex + 1) (Z.of_nat (length connectedPlayers)) in
            match Js.at_ connectedPlayers nextDrawingIndex with
            | None => s
            | Some next =>
                let nextDrawingId := Player.id next in
                let room' :=
                  Room.mk (Room.id room) (Room.hostId room) (Room.settings room)
                    ((λ p, Player.with_isDrawing p
                             (bool_decide (Player.id p = nextDrawingId)))
                       <$> Room.players room)
                    (Room.messages room)
                    (Room.currentRound room + 1) (Room.totalRounds room)
                    randomWord (Some nextDrawingId) playing
                    (Settings.roundDuration (Room.settings room))
                    (Some []) (Room.createdAt room) in
                startRoundTimer roomId
                  (saveRooms s (<[roomId := room']> (roomsCache s)))
            end
    end.
Proof.
  unfold endRoundTimeout, endRoundTimeoutUpdate.
  destruct (roomsCache s !! roomId); [|done].
  case_decide; [done|]. cbn zeta. case_decide; [done|].
  by destruct (Js.at_ _ _).
Qed.

Lemma countdownTick_eq k s :
  countdownTick k s
  = match intervals s !! k with
    | None => s
    | Some roomId =>
        match roomsCache s !! roomId with
        | None => clearInterval k s
        | Some room =>
            if decide (Room.gameStatus room ≠ playing) then clearInterval k s
            else
              let room :=
                Room.with_roundTimeLeft room (Room.roundTimeLeft room - 1) in
              let s := saveRooms s (<[roomId := room]> (roomsCache s)) in
              if decide (Room.roundTimeLeft room ≤ 0)%Z then
                (endRound roomId (clearInterval k s)).1
              else s
        end
    end.
Proof.
  unfold countdownTick, countdownTickUpdate.
  destruct (intervals s !! k); [|done].
  destruct (roomsCache s !! _); [|done].
  case_decide; [done|]. cbn zeta. by case_decide.
Qed.

(* ===================================================================== *)
(** ** Facts about the built-ins *)
(* ===================================================================== *)

Section FindIndex.
Context {A : Type} (f : A → bool).

Lemma findIndexFrom_none (i : Z) (arr : list A) :
  (∀ x, x ∈ arr → f x = false) → Js.findIndexFrom f i arr = (-1)%Z.
Proof.
  revert i. induction arr as [|x rest IH]; intros i Hall; simpl; [done|].
  rewrite (Hall x) by (by left). apply IH. intros y Hy. apply Hall. by right.
Qed.

Lemma findIndexFrom_first (i : Z) (arr : list A) (n : nat) (x : A) :
  arr !! n = Some x → f x = true →
  (∀ m y, m < n → arr !! m = Some y → f y = false) →
  Js.findIndexFrom f i arr = (i + Z.of_nat n)%Z.
Proof.
  revert i n. induction arr as [|a rest IH]; intros i n Hn Hx Hbefore; [done|].
  destruct n as [|n]; simpl in *.
  - injection Hn as ->. rewrite Hx. lia.
  - rewrite (Hbefore 0 a) by (done || lia).
    rewrite (IH (i + 1)%Z n); [lia|done..|].
    intros m y Hm Hy. apply (Hbefore (S m) y); [lia|done].
Qed.

Lemma findIndexFrom_found (i : Z) (arr : list A) :
  (0 ≤ i)%Z → Js.findIndexFrom f i arr ≠ (-1)%Z →
  ∃ n x, Js.findIndexFrom f i arr = (i + Z.of_nat n)%Z
         ∧ arr !! n = Some x ∧ f x = true
         ∧ ∀ m y, m < n → arr !! m = Some y → f y = false.
Proof.
  revert i. induction arr as [|a rest IH]; intros i Hi Hfound; simpl in *; [done|].
  destruct (f a) eqn:Ha.
  - exists 0, a. repeat split; [lia|done..|]. intros m y Hm. lia.
  - destruct (IH (i + 1)%Z) as (n & x & Heq & Hn & Hx & Hbefore); [lia|done|].
    exists (S n), x. repeat split; [lia|done..|].
    intros [|m] y Hm Hy; simpl in Hy.
    + by injection Hy as <-.
    + apply (Hbefore m y); [lia|done].
Qed.

Lemma findIndex_none (arr : list A) :
  (∀ x, x ∈ arr → f x = false) → Js.findIndex f arr = (-1)%Z.
Proof. apply findIndexFrom_none. Qed.

Lemma findIndex_first (arr : list A) (n : nat) (x : A) :
  arr !! n = Some x → f x = true →
  (∀ m y, m < n → arr !! m = Some y → f y = false) →
  Js.findIndex f arr = Z.of_nat n.
Proof. intros. unfold Js.findIndex. by erewrite findIndexFrom_first. Qed.

Lemma findIndex_found (arr : list A) :
  Js.findIndex f arr ≠ (-1)%Z →
  ∃ n x, Js.findIndex f arr = Z.of_nat n ∧ arr !! n = Some x ∧ f x = true
         ∧ ∀ m y, m < n → arr !! m = Some y → f y = false.
Proof.
  intros Hfound. destruct (findIndexFrom_found 0%Z arr) as (n & x & Heq & H);
    [lia|done|].
  exists n, x. split; [|done]. unfold Js.findIndex. rewrite Heq. lia.
Qed.

Lemma findIndex_missing (arr : list A) :
  Js.findIndex f arr = (-1)%Z → ∀ x, x ∈ arr → f x = false.
Proof.
  intros Hnone x Hx. destruct (f x) eqn:Hfx; [|done]. exfalso.
  apply list_elem_of_lookup in Hx as [n Hn].
  assert (∃ k y, k ≤ n ∧ arr !! k = Some y ∧ f y = true
                 ∧ ∀ m z, m < k → arr !! m = Some z → f z = false)
    as (k & y & _ & Hk & Hy & Hbefore).
  { clear Hnone. revert n Hn.
    induction arr as [|a rest IH]; intros n Hn; [done|].
    destruct (f a) eqn:Ha.
    - exists 0, a. repeat split; [lia|done..|]. intros m z Hm. lia.
    - destruct n as [|n]; simpl in Hn; [congruence|].
      destruct (IH n Hn) as (k & y & Hkn & Hk & Hy & Hbefore).
      exists (S k), y. repeat split; [lia|done..|].
      intros [|m] z Hm Hz; simpl in Hz; [congruence|].
      apply (Hbefore m z); [lia|done]. }
  rewrite (findIndex_first arr k y) in Hnone by done. lia.
Qed.

End FindIndex.

Example trim_toLowerCase_example :
  Js.trim (Js.toLowerCase "  Ice Cream ") = "ice cream".
Proof. reflexivity. Qed.

(** A no-break space in front, a thin space behind. *)
Example trim_toLowerCase_latin1 :
  Js.trim (Js.toLowerCase
             (Latin1.text [194; 160] ++ "ÉCOLE" ++ Latin1.text [226; 128; 137]))
  = "école".
Proof. reflexivity. Qed.

Example findIndex_example :
  Js.findIndex (λ n, bool_decide (n = 7)) [3; 7; 7] = 1%Z
  ∧ Js.findIndex (λ n, bool_decide (n = 9)) [3; 7; 7] = (-1)%Z.
Proof. split; reflexivity. Qed.

(* ===================================================================== *)
(** ** Guess evaluation: theorems *)
(* ===================================================================== *)









(* ===================================================================== *)
(** ** Starting a game *)
(* ===================================================================== *)

(** C4. With fewer than two connected players [startGame] fails with the
    "need at least 2 players" failure and the whole server state -- the room,
    its [gameStatus], every other room and the timers -- is what it was. *)
Theorem startGame_insufficient_players (s : Server) (roomId : string)
    (room : GameRoom) (firstPlayerIndex : nat) (randomWord : string) :
  roomsCache s !! roomId = Some room →
  length (Room.connectedPlayers room) < 2 →
  startGame roomId firstPlayerIndex randomWord s
    = (s, Failure "Need at least 2 players to start").
Proof.
  intros Hroom Hfew. rewrite startGame_eq; cbn zeta. rewrite Hroom.
  by rewrite decide_True.
Qed.

Lemma startGame_insufficient_players_witness :
  startGame "654321" 0 "apple" Sample.lobbyServer
    = (Sample.lobbyServer, Failure "Need at least 2 players to start").
Proof.
  apply (startGame_insufficient_players Sample.lobbyServer "654321" Sample.lobby).
  - reflexivity.
  - vm_compute. lia.
Defined.

(* ===================================================================== *)
(** ** The sweep *)
(* ===================================================================== *)

Lemma cleanupRoom_lookup (now : Z) (roomId : string) (room : GameRoom)
    (rooms : gmap string GameRoom) (k : string) :
  cleanupRoom now roomId room rooms !! k
  = if decide (k = roomId ∧ expired now room) then None else rooms !! k.
Proof.
  unfold cleanupRoom.
  destruct (decide (k = roomId ∧ expired now room)) as [[-> Hexpired]|Hkeep].
  - destruct (decide (length (Room.connectedPlayers room) = 0));
      [apply lookup_delete_eq|].
    destruct Hexpired as [?|Hold]; [done|].
    destruct (Room.createdAt room); [|done].
    rewrite decide_True by done. apply lookup_delete_eq.
  - destruct (decide (k = roomId)) as [->|Hne].
    + assert (Hlive : ¬ expired now room) by tauto. unfold expired in Hlive.
      rewrite decide_False by tauto.
      destruct (Room.createdAt room); [|done].
      by rewrite decide_False by tauto.
    + destruct (decide (length (Room.connectedPlayers room) = 0));
        [by apply lookup_delete_ne|].
      destruct (Room.createdAt room); [|done].
      destruct (decide (olderThanSixHours now z)); [by apply lookup_delete_ne|done].
Qed.

(** The loop, started on any registry [base], removes from it exactly the
    keys of the expired rooms it iterates over. *)
Lemma cleanup_fold_lookup (now : Z) (base rooms : gmap string GameRoom)
    (k : string) :
  map_fold (cleanupRoom now) base rooms !! k
  = match rooms !! k with
    | Some room => if decide (expired now room) then None else base !! k
    | None => base !! k
    end.
Proof.
  revert k. apply (map_fold_weak_ind
    (λ acc m, ∀ k, acc !! k = match m !! k with
                              | Some room =>
                                  if decide (expired now room) then None
                                  else base !! k
                              | None => base !! k
                              end)).
  - intros k. by rewrite lookup_empty.
  - intros roomId room m acc Hfresh IH k.
    rewrite cleanupRoom_lookup, IH.
    destruct (decide (k = roomId)) as [->|Hne].
    + rewrite lookup_insert_eq, Hfresh.
      destruct (decide (expired now room)).
      * by rewrite decide_True.
      * by rewrite decide_False by tauto.
    + rewrite lookup_insert_ne by done.
      by rewrite decide_False by tauto.
Qed.

(** C8. After one [cleanupRooms] sweep the registry holds exactly the rooms
    it held before that are not expired: a room with no connected player, or
    older than six hours whatever its connections, is gone, and a room with a
    connected player and an age of at most six hours is still there,
    unchanged.  The timers are not touched. *)
Theorem cleanupRooms_removes_exactly_expired (now : Z) (s : Server)
    (roomId : string) (room : GameRoom) :
  (roomsCache (cleanupRooms now s) !! roomId = Some room
   ↔ roomsCache s !! roomId = Some room ∧ ¬ expired now room)
  ∧ (roomsCache s !! roomId = Some room →
     (roomsCache (cleanupRooms now s) !! roomId = None ↔ expired now room))
  ∧ (roomsCache s !! roomId = Some room →
     0 < length (Room.connectedPlayers room) →
     (∀ createdAt, Room.createdAt room = Some createdAt →
                   (now - createdAt ≤ 6 * 3600000)%Z) →
     roomsCache (cleanupRooms now s) !! roomId = Some room)
  ∧ intervals (cleanupRooms now s) = intervals s
  ∧ timeouts (cleanupRooms now s) = timeouts s.
Proof.
  assert (Hlookup : ∀ k, roomsCache (cleanupRooms now s) !! k
            = match roomsCache s !! k with
              | Some room => if decide (expired now room) then None
                             else roomsCache s !! k
              | None => roomsCache s !! k
              end) by (intros k; apply cleanup_fold_lookup).
  split; [|split; [|split; [|done]]].
  - rewrite Hlookup. destruct (roomsCache s !! roomId) as [room0|] eqn:Hroom.
    + destruct (decide (expired now room0)) as [Hexp|Hlive].
      * split; [done|]. intros [[= ->] Hnot]. done.
      * split; [intros [= ->]; done|]. by intros [? _].
    + split; [done|]. by intros [? _].
  - intros Hroom. rewrite Hlookup, Hroom.
    destruct (decide (expired now room)); split; done.
  - intros Hroom Hconnected Hyoung. rewrite Hlookup, Hroom.
    rewrite decide_False; [done|]. intros [Hnone|Hold]; [lia|].
    destruct (Room.createdAt room) as [createdAt|]; [|done].
    specialize (Hyoung createdAt eq_refl). unfold olderThanSixHours in Hold. lia.
Qed.

Lemma cleanupRooms_removes_exactly_expired_witness :
  roomsCache (cleanupRooms (1000 + 6 * 3600000) Sample.server) !! "123456"
    = Some Sample.room
  ∧ roomsCache (cleanupRooms (1001 + 6 * 3600000) Sample.server) !! "123456"
    = None.
Proof.
  split.
  - apply (cleanupRooms_removes_exactly_expired _ Sample.server "123456"
             Sample.room).
    + reflexivity.
    + vm_compute. lia.
    + intros createdAt [= <-]. lia.
  - apply (cleanupRooms_removes_exactly_expired _ Sample.server "123456"
             Sample.room); [reflexivity|].
    right. unfold olderThanSixHours. simpl. lia.
Defined.

(* ===================================================================== *)
(** ** Facts about player lists *)
(* ===================================================================== *)

Lemma elem_of_alter {A : Type} (f : A → A) (n : nat) (l : list A) (y : A) :
  y ∈ alter f n l → y ∈ l ∨ ∃ x, l !! n = Some x ∧ y = f x.
Proof.
  intros Hy. apply list_elem_of_lookup in Hy as [i Hi].
  rewrite list_lookup_alter in Hi. case_decide as Heq.
  - subst i. destruct (l !! n) as [x|] eqn:Hl; simpl in Hi; [|done].
    injection Hi as <-. right. eauto.
  - left. by eapply list_elem_of_lookup_2.
Qed.

Lemma fmap_alter_same {A B : Type} (g : A → B) (f : A → A) (n : nat)
    (l : list A) :
  (∀ x, l !! n = Some x → g (f x) = g x) → g <$> alter f n l = g <$> l.
Proof.
  intros Hsame. apply list_eq. intros i.
  rewrite !list_lookup_fmap, list_lookup_alter.
  case_decide as Heq; [|done]. subst i.
  destruct (l !! n) as [x|] eqn:Hl; simpl; [|done]. by rewrite Hsame.
Qed.

Lemma NoDup_fmap_inj {A B : Type} (g : A → B) (l : list A) (x y : A) :
  NoDup (g <$> l) → x ∈ l → y ∈ l → g x = g y → x = y.
Proof.
  intros Hnodup Hx Hy Heq.
  apply list_elem_of_lookup in Hx as [i Hi].
  apply list_elem_of_lookup in Hy as [j Hj].
  assert (i = j) as ->; [|congruence].
  eapply NoDup_lookup; [exact Hnodup| |].
  - by rewrite list_lookup_fmap, Hi.
  - rewrite list_lookup_fmap, Hj. simpl. by rewrite Heq.
Qed.

Lemma elem_of_connectedPlayers (room : GameRoom) (p : GamePlayer) :
  p ∈ Room.connectedPlayers room
  ↔ Player.isConnected p = true ∧ p ∈ Room.players room.
Proof.
  unfold Room.connectedPlayers. rewrite list_elem_of_filter.
  by rewrite Is_true_true.
Qed.

Lemma at_lookup {A : Type} (arr : list A) (i : Z) (x : A) :
  Js.at_ arr i = Some x → (0 ≤ i)%Z ∧ arr !! Z.to_nat i = Some x.
Proof.
  unfold Js.at_. destruct (i <? 0)%Z eqn:Hneg; [done|].
  apply Z.ltb_ge in Hneg. done.
Qed.

(* ===================================================================== *)
(** ** The room invariant is maintained *)
(* ===================================================================== *)

Section RoomInvariant.
Context (stays : Prop).

Lemma atMostOneDrawing_of_invariant (room : GameRoom) :
  roomInvariant stays room → atMostOneDrawing room.
Proof.
  intros [_ Hids Hdrawer _ _] i j p q Hi Hj Hp Hq.
  eapply NoDup_lookup; [exact Hids| |].
  - by rewrite list_lookup_fmap, Hi.
  - rewrite list_lookup_fmap, Hj. simpl. f_equal.
    apply list_elem_of_lookup_2 in Hi, Hj.
    pose proof (Hdrawer p Hi Hp) as Hdp. pose proof (Hdrawer q Hj Hq) as Hdq.
    congruence.
Qed.

Lemma invariant_fresh (roomId hostId : string) (settings : GameSettings)
    (now : Z) :
  roomInvariant stays
    (Room.mk roomId hostId settings [] [] 0 (Settings.rounds settings) ""
             None waiting (Settings.roundDuration settings) (Some []) (Some now)).
Proof.
  split; simpl; [done|constructor|..].
  - intros p Hp. by apply elem_of_nil in Hp.
  - done.
  - intros _ _ p Hp. by apply elem_of_nil in Hp.
Qed.

Lemma invariant_with_hostId room v :
  roomInvariant stays room → roomInvariant stays (Room.with_hostId room v).
Proof. by intros []. Qed.

Lemma invariant_with_messages room v :
  roomInvariant stays room → roomInvariant stays (Room.with_messages room v).
Proof. by intros []. Qed.

Lemma invariant_with_correctGuessers room v :
  (∀ d, Room.drawingPlayerId room = Some d → d ∉ v) →
  roomInvariant stays room → roomInvariant stays (Room.with_correctGuessers room v).
Proof. by intros Hv []. Qed.

Lemma invariant_with_roundTimeLeft room v :
  roomInvariant stays room → roomInvariant stays (Room.with_roundTimeLeft room v).
Proof. by intros []. Qed.

Lemma invariant_with_gameStatus room v :
  v ≠ playing →
  roomInvariant stays room → roomInvariant stays (Room.with_gameStatus room v).
Proof. intros Hv []. by split. Qed.

(** Replacing the players by a list with the same ids, in which every
    flagged entry comes from a flagged entry that was no less connected. *)
Lemma invariant_with_players room players' :
  roomInvariant stays room →
  Player.id <$> players' = Player.id <$> Room.players room →
  (∀ p', p' ∈ players' → Player.isDrawing p' = true →
     ∃ p, p ∈ Room.players room ∧ Player.id p = Player.id p'
          ∧ Player.isDrawing p = true
          ∧ (stays → Room.gameStatus room = playing →
             Player.isConnected p = true → Player.isConnected p' = true)) →
  roomInvariant stays (Room.with_players room players').
Proof.
  intros [Hrounds Hids Hdrawer Hguessers Hconnected] Hsame Hflagged.
  split; simpl; [done|by rewrite Hsame| |done|].
  - intros p' Hp' Hdrawing.
    destruct (Hflagged p' Hp' Hdrawing) as (p & Hp & <- & Hpd & _). eauto.
  - intros Hstays Hplaying p' Hp' Hdrawing.
    destruct (Hflagged p' Hp' Hdrawing) as (p & Hp & _ & Hpd & Hkeep). eauto.
Qed.

(** The record [startGame] and the next-round branch build: [drawer] is one
    of the connected players and exactly the entries with its id are
    flagged. *)
Lemma invariant_new_round room drawer (rename : GamePlayer → GamePlayer)
    messages currentRound word timeLeft :
  roomInvariant stays room →
  drawer ∈ Room.connectedPlayers room →
  (∀ p, Player.id (rename p) = Player.id p
        ∧ Player.isConnected (rename p) = Player.isConnected p
        ∧ Player.isDrawing (rename p)
          = bool_decide (Player.id p = Player.id drawer)) →
  roomInvariant stays
    (Room.mk (Room.id room) (Room.hostId room) (Room.settings room)
             (rename <$> Room.players room) messages currentRound
             (Room.totalRounds room) word (Some (Player.id drawer)) playing
             timeLeft (Some []) (Room.createdAt room)).
Proof.
  intros [Hrounds Hids Hdrawer Hguessers Hconnected] Hin Hrename.
  apply elem_of_connectedPlayers in Hin as [Hdc Hdin].
  split; simpl; [done| | |intros d _; apply not_elem_of_nil|].
  - rewrite <- list_fmap_compose.
    erewrite list_fmap_ext; [exact Hids|]. intros i p _. simpl. apply Hrename.
  - intros p' Hp' Hdrawing.
    apply list_elem_of_fmap in Hp' as (p & -> & Hp).
    destruct (Hrename p) as (-> & _ & Hflag). rewrite Hflag in Hdrawing.
    apply bool_decide_eq_true in Hdrawing. by rewrite Hdrawing.
  - intros _ _ p' Hp' Hdrawing.
    apply list_elem_of_fmap in Hp' as (p & -> & Hp).
    destruct (Hrename p) as (_ & -> & Hflag). rewrite Hflag in Hdrawing.
    apply bool_decide_eq_true in Hdrawing.
    by rewrite (NoDup_fmap_inj Player.id _ p drawer Hids Hp Hdin Hdrawing).
Qed.

End RoomInvariant.

Section Preservation.
Context (stays : Prop).

Lemma roomsInvariant_insert rooms roomId room :
  roomsInvariant stays rooms → roomInvariant stays room →
  roomsInvariant stays (<[roomId := room]> rooms).
Proof.
  intros Hrooms Hroom k r. rewrite lookup_insert. case_decide.
  - by intros [= <-].
  - apply Hrooms.
Qed.

Lemma roomsInvariant_delete rooms roomId :
  roomsInvariant stays rooms → roomsInvariant stays (delete roomId rooms).
Proof.
  intros Hrooms k r. rewrite lookup_delete. case_decide; [done|apply Hrooms].
Qed.

Lemma roomsCache_startRoundTimer roomId s :
  roomsCache (startRoundTimer roomId s) = roomsCache s.
Proof.
  unfold startRoundTimer. destruct (roomsCache s !! roomId); [|done].
  by case_decide.
Qed.

Lemma invariant_push room player :
  roomInvariant stays room →
  (∀ p, p ∈ Room.players room → Player.id p ≠ User.id player) →
  roomInvariant stays
    (Room.with_players room (Room.players room ++ [newPlayer player])).
Proof.
  intros [Hrounds Hids Hdrawer Hguessers Hconnected] Hfresh.
  split; simpl; [done| | |done|].
  - rewrite fmap_app. apply NoDup_app. split; [done|]. split.
    + intros i Hi Hlast. apply list_elem_of_singleton in Hlast.
      apply list_elem_of_fmap in Hi as (p & -> & Hp). by apply (Hfresh p).
    + apply NoDup_singleton.
  - intros p Hp Hdrawing. apply elem_of_app in Hp as [Hp|Hp]; [eauto|].
    apply list_elem_of_singleton in Hp as ->. done.
  - intros Hstays Hplaying p Hp Hdrawing.
    apply elem_of_app in Hp as [Hp|Hp]; [eauto|].
    apply list_elem_of_singleton in Hp as ->. done.
Qed.

Lemma createRoom_invariant roomId hostId settings now s :
  roomsInvariant stays (roomsCache s) →
  roomsInvariant stays (roomsCache (createRoom roomId hostId settings now s).1).
Proof. intros Hs. apply roomsInvariant_insert; [done|apply invariant_fresh]. Qed.

Lemma joinRoom_invariant roomId player s :
  roomsInvariant stays (roomsCache s) →
  roomsInvariant stays (roomsCache (joinRoom roomId player s).1).
Proof.
  intros Hs. unfold joinRoom.
  destruct (roomsCache s !! roomId) as [room|] eqn:Hroom; [|done].
  pose proof (Hs _ _ Hroom) as Hinv.
  set (f := λ p : GamePlayer, bool_decide (Player.id p = User.id player)).
  destruct (decide (Js.findIndex f (Room.players room) ≠ (-1)%Z)) as [Hfound|Hnone].
  - destruct (findIndex_found f _ Hfound) as (n & x & Hidx & Hn & Hx & _).
    apply bool_decide_eq_true in Hx. rewrite Hidx, Nat2Z.id.
    apply roomsInvariant_insert; [done|].
    apply invariant_with_players; [done|..].
    + apply fmap_alter_same. intros y Hy.
      assert (y = x) as -> by congruence. done.
    + intros p' Hp' Hdrawing.
      apply elem_of_alter in Hp' as [Hp'|(y & Hy & ->)]; [by exists p'|].
      exists y. split; [by eapply list_elem_of_lookup_2|].
      assert (y = x) as -> by congruence. done.
  - apply dec_stable in Hnone. case_decide; [done|].
    apply roomsInvariant_insert; [done|]. apply invariant_push; [done|].
    intros p Hp. apply (findIndex_missing f _ Hnone) in Hp.
    by apply bool_decide_eq_false in Hp.
Qed.

Lemma leaveRoom_invariant roomId playerId s :
  (stays → ¬ drawerLeaves s (LeaveRoom roomId playerId)) →
  roomsInvariant stays (roomsCache s) →
  roomsInvariant stays (roomsCache (leaveRoom roomId playerId s).1).
Proof.
  intros Hallowed Hs. unfold leaveRoom.
  destruct (roomsCache s !! roomId) as [room|] eqn:Hroom; [|done].
  pose proof (Hs _ _ Hroom) as Hinv.
  set (f := λ p : GamePlayer, bool_decide (Player.id p = playerId)).
  destruct (decide (Js.findIndex f (Room.players room) ≠ (-1)%Z)) as [Hfound|Hnone];
    [|done].
  destruct (findIndex_found f _ Hfound) as (n & x & Hidx & Hn & Hx & _).
  apply bool_decide_eq_true in Hx. rewrite Hidx, Nat2Z.id. cbn zeta.
  set (room' := Room.with_players room _).
  assert (Hinv' : roomInvariant stays room').
  { apply invariant_with_players; [done|..].
    - by apply fmap_alter_same.
    - intros p' Hp' Hdrawing.
      apply elem_of_alter in Hp' as [Hp'|(y & Hy & ->)]; [by exists p'|].
      assert (y = x) as -> by congruence.
      exists x. split; [by eapply list_elem_of_lookup_2|].
      repeat split; [done|].
      intros Hstays Hplaying _. exfalso. apply (Hallowed Hstays).
      exists room. repeat split; [done..|].
      rewrite <- Hx. apply (inv_drawer _ _ Hinv); [|done].
      by eapply list_elem_of_lookup_2. }
  simpl. destruct (Room.connectedPlayers room') as [|first rest].
  - by apply roomsInvariant_delete.
  - case_decide; apply roomsInvariant_insert; try done.
    by apply invariant_with_hostId.
Qed.

Lemma addMessage_invariant {engine : Js.Engine} roomId message now s :
  roomsInvariant stays (roomsCache s) →
  roomsInvariant stays (roomsCache (addMessage roomId message now s).1).
Proof.
  intros Hs. unfold addMessage.
  destruct (roomsCache s !! roomId) as [room|] eqn:Hroom;
    [|by repeat case_decide].
  pose proof (Hs _ _ Hroom) as Hinv. cbn zeta.
  set (room1 := Room.with_correctGuessers room (Room.guessers room)).
  assert (Hinv1 : roomInvariant stays room1).
  { apply invariant_with_correctGuessers; [|done]. apply (inv_guessers _ _ Hinv). }
  case_decide as Hguess; [destruct (negb _)|]; simpl;
    try (apply roomsInvariant_insert; [done|];
         by apply invariant_with_messages).
  set (f := λ p : GamePlayer, bool_decide (Player.id p = _)).
  apply roomsInvariant_insert; [done|]. apply invariant_with_messages.
  assert (Hinv2 : roomInvariant stays
            (Room.with_correctGuessers room1
               (Room.guessers room1 ++ [User.id (Message.in_user message)]))).
  { apply invariant_with_correctGuessers; [|done].
    intros d Hd Hin. apply elem_of_app in Hin as [Hin|Hin].
    - by apply (inv_guessers _ _ Hinv d).
    - apply list_elem_of_singleton in Hin as ->.
      destruct Hguess as (_ & Hnot & _). by apply Hnot. }
  destruct (decide (Js.findIndex f (Room.players room) ≠ (-1)%Z)) as [Hfound|Hnone];
    [|done].
  apply invariant_with_players; [done|..].
  - by apply fmap_alter_same.
  - intros p' Hp' Hdrawing.
    apply elem_of_alter in Hp' as [Hp'|(y & Hy & ->)]; [by exists p'|].
    exists y. split; [by eapply list_elem_of_lookup_2|]. done.
Qed.

Lemma startGame_invariant roomId firstPlayerIndex randomWord s :
  roomsInvariant stays (roomsCache s) →
  roomsInvariant stays
    (roomsCache (startGame roomId firstPlayerIndex randomWord s).1).
Proof.
  intros Hs. rewrite startGame_eq; cbn zeta.
  destruct (roomsCache s !! roomId) as [room|] eqn:Hroom; [|done].
  pose proof (Hs _ _ Hroom) as Hinv.
  case_decide; [done|].
  destruct (Room.connectedPlayers room !! firstPlayerIndex) as [first|] eqn:Hfirst;
    [|done].
  simpl. rewrite roomsCache_startRoundTimer. simpl.
  apply roomsInvariant_insert; [done|].
  apply (invariant_new_round stays room first); [done| |done].
  by eapply list_elem_of_lookup_2.
Qed.

Lemma endRound_invariant roomId s :
  roomsInvariant stays (roomsCache s) →
  roomsInvariant stays (roomsCache (endRound roomId s).1).
Proof.
  intros Hs. rewrite endRound_eq; cbn zeta.
  destruct (roomsCache s !! roomId) as [room|] eqn:Hroom; [|done].
  case_decide; [done|]. simpl.
  apply roomsInvariant_insert; [done|].
  apply invariant_with_gameStatus; [done|]. by eapply Hs.
Qed.

Lemma endRoundTimeout_invariant roomId randomWord s :
  roomsInvariant stays (roomsCache s) →
  roomsInvariant stays (roomsCache (endRoundTimeout roomId randomWord s)).
Proof.
  intros Hs. rewrite endRoundTimeout_eq; cbn zeta.
  destruct (roomsCache s !! roomId) as [room|] eqn:Hroom; [|done].
  pose proof (Hs _ _ Hroom) as Hinv.
  case_decide.
  { apply roomsInvariant_insert; [done|]. by apply invariant_with_gameStatus. }
  case_decide.
  { apply roomsInvariant_insert; [done|]. by apply invariant_with_gameStatus. }
  destruct (Js.at_ _ _) as [next|] eqn:Hnext; [|done].
  rewrite roomsCache_startRoundTimer. simpl.
  apply roomsInvariant_insert; [done|].
  apply (invariant_new_round stays room next); [done| |done].
  apply at_lookup in Hnext as [_ Hnext]. by eapply list_elem_of_lookup_2.
Qed.

Lemma fireTimeout_invariant k randomWord s :
  roomsInvariant stays (roomsCache s) →
  roomsInvariant stays (roomsCache (fireTimeout k randomWord s)).
Proof.
  intros Hs. unfold fireTimeout, timeoutFired. destruct (timeouts s !! k); [|done].
  by apply endRoundTimeout_invariant.
Qed.

Lemma countdownTick_invariant k s :
  roomsInvariant stays (roomsCache s) →
  roomsInvariant stays (roomsCache (countdownTick k s)).
Proof.
  intros Hs. rewrite countdownTick_eq; cbn zeta. destruct (intervals s !! k) as [roomId|]; [|done].
  destruct (roomsCache s !! roomId) as [room|] eqn:Hroom; [|done].
  case_decide; [done|]. cbn zeta.
  assert (roomsInvariant stays
            (<[roomId := Room.with_roundTimeLeft room (Room.roundTimeLeft room - 1)]>
               (roomsCache s))) as Hticked.
  { apply roomsInvariant_insert; [done|].
    apply invariant_with_roundTimeLeft. by eapply Hs. }
  case_decide; [|done]. by apply endRound_invariant.
Qed.

Lemma cleanupRooms_invariant now s :
  roomsInvariant stays (roomsCache s) →
  roomsInvariant stays (roomsCache (cleanupRooms now s)).
Proof.
  intros Hs roomId room. simpl. rewrite cleanup_fold_lookup.
  destruct (roomsCache s !! roomId) as [room0|] eqn:Hroom; [|done].
  case_decide; [done|]. intros [= <-]. by eapply Hs.
Qed.

Lemma run_invariant {engine : Js.Engine} e s :
  (stays → ¬ drawerLeaves s e) →
  roomsInvariant stays (roomsCache s) →
  roomsInvariant stays (roomsCache (run e s)).
Proof.
  intros Hallowed Hs. destruct e; simpl.
  - by apply createRoom_invariant.
  - by apply joinRoom_invariant.
  - by apply leaveRoom_invariant.
  - by apply addMessage_invariant.
  - by apply startGame_invariant.
  - by apply endRound_invariant.
  - by apply countdownTick_invariant.
  - by apply fireTimeout_invariant.
  - by apply cleanupRooms_invariant.
Qed.

End Preservation.

Lemma reachable_invariant {engine : Js.Engine} allowed s :
  reachable allowed s →
  roomsInvariant (drawerStays allowed) (roomsCache s).
Proof.
  induction 1 as [|s e _ IH Hallowed].
  - intros roomId room. simpl. by rewrite lookup_empty.
  - apply run_invariant; [|done]. intros Hstays. by apply Hstays.
Qed.

(** In particular the drawer of a reachable room is never among its
    [correctGuessers]: they are reset whenever the drawer changes and
    [addMessage] never adds the drawer. *)
Lemma reachable_drawer_not_guesser {engine : Js.Engine} allowed s roomId room d :
  reachable allowed s → roomsCache s !! roomId = Some room →
  Room.drawingPlayerId room = Some d → d ∉ Room.guessers room.
Proof.
  intros Hreach Hroom.
  apply (inv_guessers _ _ (reachable_invariant allowed s Hreach roomId room Hroom)).
Qed.

Lemma reachable_runAll {engine : Js.Engine} allowed es s :
  reachable allowed s → traceAllowed allowed es s →
  reachable allowed (runAll es s).
Proof.
  revert s. induction es as [|e es IH]; intros s Hs Hes; [done|].
  destruct Hes as [He Hes]. simpl. apply IH; [|done]. by apply reachable_step.
Qed.

Lemma traceAllowed_anyEvent {engine : Js.Engine} es s : traceAllowed anyEvent es s.
Proof. revert s. induction es as [|e es IH]; intros s; by simpl. Qed.

(* ===================================================================== *)
(** ** The drawing flag *)
(* ===================================================================== *)

Example started_room :
  roomsCache Sample.started !! "123456" = Some Sample.startedRoom
  ∧ intervals Sample.started = ["123456"] ∧ timeouts Sample.started = [].
Proof. by vm_compute. Qed.

Example drawerLeft_room :
  roomsCache Sample.drawerLeft !! "123456" = Some Sample.drawerLeftRoom.
Proof. by vm_compute. Qed.

(** C2, as stated, fails: after the drawer calls [leaveRoom] the room is
    still playing and the only flagged player is disconnected. *)
Lemma drawer_disconnected_counterexample :
  reachable anyEvent Sample.drawerLeft
  ∧ roomsCache Sample.drawerLeft !! "123456" = Some Sample.drawerLeftRoom
  ∧ Room.gameStatus Sample.drawerLeftRoom = playing
  ∧ Room.players Sample.drawerLeftRoom !! 0
    = Some (Player.mk "alice" "Alice" Js.missing 0 true false)
  ∧ ¬ drawerConnected Sample.drawerLeftRoom.
Proof.
  split; [|split; [|split; [|split]]].
  - apply (reachable_runAll anyEvent
             (Sample.gameTrace ++ [LeaveRoom "123456" "alice"]) emptyServer);
      [constructor|apply traceAllowed_anyEvent].
  - by vm_compute.
  - reflexivity.
  - reflexivity.
  - intros Hconnected.
    specialize (Hconnected eq_refl (Player.mk "alice" "Alice" Js.missing 0 true false)).
    discriminate Hconnected; [left|reflexivity].
Qed.

(** C2, amended.  In every room reachable through the operations at most one
    player has [isDrawing] set, and a flagged player is the one
    [drawingPlayerId] names; while the room is playing that player is
    connected as long as no drawer has left mid-round. *)
Theorem drawing_flag_invariant {engine : Js.Engine} (allowed : Server → Event → Prop) (s : Server)
    (roomId : string) (room : GameRoom) :
  reachable allowed s →
  roomsCache s !! roomId = Some room →
  atMostOneDrawing room
  ∧ (∀ p, p ∈ Room.players room → Player.isDrawing p = true →
          Room.drawingPlayerId room = Some (Player.id p))
  ∧ (drawerStays allowed → drawerConnected room).
Proof.
  intros Hreach Hroom.
  pose proof (reachable_invariant allowed s Hreach roomId room Hroom) as Hinv.
  split; [by eapply atMostOneDrawing_of_invariant|].
  split; [apply (inv_drawer _ _ Hinv)|].
  intros Hstays Hplaying. by apply (inv_connected _ _ Hinv).
Qed.

Lemma drawing_flag_invariant_witness :
  atMostOneDrawing Sample.startedRoom
  ∧ (∀ p, p ∈ Room.players Sample.startedRoom → Player.isDrawing p = true →
          Room.drawingPlayerId Sample.startedRoom = Some (Player.id p))
  ∧ drawerConnected Sample.startedRoom.
Proof.
  destruct (drawing_flag_invariant drawerNeverLeaves Sample.started "123456"
              Sample.startedRoom) as (Hone & Hdrawer & Hconnected).
  - apply reachable_runAll; [constructor|].
    unfold Sample.gameTrace. cbn -[run]. repeat split; intros [].
  - by vm_compute.
  - repeat split; [exact Hone|exact Hdrawer|]. apply Hconnected.
    intros s e Hallowed. exact Hallowed.
Defined.

(* ===================================================================== *)
(** ** The continuation of [endRound] *)
(* ===================================================================== *)




Lemma startRoundTimer_playing roomId room s :
  roomsCache s !! roomId = Some room → Room.gameStatus room = playing →
  startRoundTimer roomId s
  = mkServer (roomsCache s) (intervals s ++ [roomId]) (timeouts s) (inheritedKeys s).
Proof.
  intros Hroom Hplaying. unfold startRoundTimer. rewrite Hroom.
  by rewrite decide_False by (intros Hne; by apply Hne).
Qed.


Example roundEnded_state :
  timeouts Sample.roundEnded = ["123456"]
  ∧ intervals Sample.roundEnded = ["123456"]
  ∧ roomsCache Sample.roundEnded !! "123456"
    = Some (Room.with_gameStatus Sample.startedRoom roundEnd).
Proof. by vm_compute. Qed.


(** C10. In the next-round branch, when [drawingPlayerId] is the id of none
    of the connected players, [findIndex] answers -1, the next index is
    [(-1 + 1) % n = 0], and the new drawer is the first connected player in
    join order. *)
Theorem nextRound_drawer_not_connected (s : Server) (roomId : string)
    (room : GameRoom) (randomWord : string) :
  roomsCache s !! roomId = Some room →
  (Room.currentRound room < Room.totalRounds room)%Z →
  2 ≤ length (Room.connectedPlayers room) →
  (∀ p, p ∈ Room.connectedPlayers room →
        Some (Player.id p) ≠ Room.drawingPlayerId room) →
  ∃ first room',
    Room.connectedPlayers room !! 0 = Some first
    ∧ Js.findIndex
        (λ p, bool_decide (Some (Player.id p) = Room.drawingPlayerId room))
        (Room.connectedPlayers room) = (-1)%Z
    ∧ roomsCache (endRoundTimeout roomId randomWord s) !! roomId = Some room'
    ∧ Room.gameStatus room' = playing
    ∧ Room.drawingPlayerId room' = Some (Player.id first)
    ∧ Room.players room'
      = (λ p, Player.with_isDrawing p
                (bool_decide (Player.id p = Player.id first)))
        <$> Room.players room.
Proof.
  intros Hroom Hmore Hmany Hgone.
  assert (Hindex : Js.findIndex
            (λ p, bool_decide (Some (Player.id p) = Room.drawingPlayerId room))
            (Room.connectedPlayers room) = (-1)%Z).
  { apply findIndex_none. intros p Hp. apply bool_decide_eq_false. by apply Hgone. }
  destruct (Room.connectedPlayers room) as [|first rest] eqn:Hconnected;
    [simpl in Hmany; lia|].
  exists first. rewrite endRoundTimeout_eq; cbn zeta. rewrite Hroom.
  rewrite decide_False by lia. rewrite Hconnected.
  rewrite decide_False by lia. cbn zeta. rewrite Hindex.
  change (Js.at_ (first :: rest) _) with (Some first). cbv beta iota zeta.
  erewrite startRoundTimer_playing;
    [|simpl; apply lookup_insert_eq|reflexivity].
  simpl. rewrite lookup_insert_eq. eexists. repeat split; reflexivity.
Qed.

Example drawerLeftRoundEnded_state :
  roomsCache Sample.drawerLeftRoundEnded !! "123456"
    = Some (Room.with_gameStatus Sample.drawerLeftRoom roundEnd).
Proof. by vm_compute. Qed.

Lemma nextRound_drawer_not_connected_witness :
  ∃ room',
    roomsCache (endRoundTimeout "123456" "dog" Sample.drawerLeftRoundEnded)
      !! "123456" = Some room'
    ∧ Room.drawingPlayerId room' = Some "bob"
    ∧ Room.players room'
      = [ Player.mk "alice" "Alice" Js.missing 0 false false;
          Player.mk "bob" "Bob" Js.missing 0 true true;
          Player.mk "carol" "Carol" Js.missing 0 false true ].
Proof.
  destruct (nextRound_drawer_not_connected Sample.drawerLeftRoundEnded "123456"
              (Room.with_gameStatus Sample.drawerLeftRoom roundEnd) "dog")
    as (first & room' & Hfirst & _ & Hroom' & _ & Hdrawer & Hplayers).
  - by vm_compute.
  - by vm_compute.
  - vm_compute. lia.
  - intros p Hp.
    change (Room.connectedPlayers _) with
      [ Player.mk "bob" "Bob" Js.missing 0 false true;
        Player.mk "carol" "Carol" Js.missing 0 false true ] in Hp.
    repeat (apply elem_of_cons in Hp as [->|Hp]; [by vm_compute|]).
    by apply elem_of_nil in Hp.
  - injection Hfirst as <-. exists room'. repeat split; assumption.
Defined.

(* ===================================================================== *)
(** ** Drawer rotation *)
(* ===================================================================== *)

Lemma findIndex_unique_key {A K : Type} (key : A → K) (f : A → bool)
    (arr : list A) (n : nat) (x : A) :
  NoDup (key <$> arr) → arr !! n = Some x →
  (∀ y, f y = true ↔ key y = key x) →
  Js.findIndex f arr = Z.of_nat n.
Proof.
  intros Hnodup Hn Hf. apply (findIndex_first f arr n x Hn).
  - by apply Hf.
  - intros m y Hm Hy. destruct (f y) eqn:Hfy; [|done].
    apply Hf in Hfy. assert (m = n); [|lia].
    eapply NoDup_lookup; [exact Hnodup| |].
    + rewrite list_lookup_fmap, Hy. simpl. by rewrite Hfy.
    + by rewrite list_lookup_fmap, Hn.
Qed.

Lemma filter_fmap_stable {A : Type} (P : A → Prop) `{∀ x, Decision (P x)}
    (g : A → A) (l : list A) :
  (∀ x, P (g x) ↔ P x) → filter P (g <$> l) = g <$> filter P l.
Proof.
  intros Hstable. induction l as [|x l IH]; [done|].
  rewrite fmap_cons, !filter_cons, IH.
  destruct (decide (P x)) as [Hx|Hx].
  - by rewrite decide_True by by apply Hstable.
  - by rewrite decide_False by by rewrite Hstable.
Qed.

Lemma NoDup_connectedIds (room : GameRoom) :
  NoDup (Player.id <$> Room.players room) → NoDup (connectedIds room).
Proof.
  intros Hnodup. eapply sublist_NoDup; [exact Hnodup|].
  apply fmap_sublist, sublist_filter.
Qed.

Lemma rem_succ_mod (i n : nat) :
  0 < n → Z.rem (Z.of_nat i + 1) (Z.of_nat n) = Z.of_nat ((i + 1) mod n).
Proof.
  intros Hn. rewrite Z.rem_mod_nonneg by lia.
  rewrite Nat2Z.inj_mod. f_equal. lia.
Qed.

(** One round-end in a playing room with rounds to go and a connected
    drawer: the room is playing the next round and the drawer is the next
    connected player, cyclically. *)
Lemma roundEndAndAdvance_rotates (s : Server) (roomId : string)
    (room : GameRoom) (i : nat) (randomWord : string) :
  roomsCache s !! roomId = Some room →
  Room.gameStatus room = playing →
  NoDup (Player.id <$> Room.players room) →
  2 ≤ length (Room.connectedPlayers room) →
  i < length (Room.connectedPlayers room) →
  Room.drawingPlayerId room = connectedIds room !! i →
  (Room.currentRound room < Room.totalRounds room)%Z →
  ∃ room',
    roomsCache (roundEndAndAdvance roomId s randomWord) !! roomId = Some room'
    ∧ Room.gameStatus room' = playing
    ∧ Room.currentRound room' = (Room.currentRound room + 1)%Z
    ∧ Room.totalRounds room' = Room.totalRounds room
    ∧ Player.id <$> Room.players room' = Player.id <$> Room.players room
    ∧ Room.connectedPlayers room'
      = (λ p, Player.with_isDrawing p
                (bool_decide (Some (Player.id p) = Room.drawingPlayerId room')))
        <$> Room.connectedPlayers room
    ∧ Room.drawingPlayerId room'
      = connectedIds room !! ((i + 1) mod length (Room.connectedPlayers room)).
Proof.
  intros Hroom Hplaying Hnodup Hmany Hi Hdrawer Hmore.
  set (n := length (Room.connectedPlayers room)) in *.
  destruct (lookup_lt_is_Some_2 (Room.connectedPlayers room) i Hi) as [cur Hcur].
  assert (Hnext : (i + 1) mod n < n) by (apply Nat.mod_upper_bound; lia).
  destruct (lookup_lt_is_Some_2 (Room.connectedPlayers room) _ Hnext)
    as [next Hnextp].
  unfold connectedIds in *. rewrite list_lookup_fmap, Hcur in Hdrawer.
  simpl in Hdrawer.
  unfold roundEndAndAdvance. rewrite endRound_eq; cbn zeta. rewrite Hroom.
  rewrite decide_False by (intros Hne; by apply Hne).
  unfold fireTimeout, timeoutFired. simpl.
  rewrite list_lookup_middle by done.
  rewrite endRoundTimeout_eq; cbn zeta. simpl. rewrite lookup_insert_eq. simpl.
  rewrite decide_False by lia.
  change (Room.connectedPlayers (Room.with_gameStatus room roundEnd))
    with (Room.connectedPlayers room).
  rewrite decide_False by (fold n; lia). cbn zeta. fold n.
  rewrite (findIndex_unique_key Player.id _ _ i cur); [|by apply NoDup_connectedIds|done|].
  2:{ intros y. rewrite Hdrawer, bool_decide_eq_true. split; congruence. }
  rewrite rem_succ_mod by lia.
  unfold Js.at_. rewrite (proj2 (Z.ltb_ge _ 0)) by lia. rewrite Nat2Z.id, Hnextp.
  erewrite startRoundTimer_playing;
    [|simpl; apply lookup_insert_eq|reflexivity].
  simpl. rewrite lookup_insert_eq. eexists. split; [reflexivity|]. simpl.
  repeat split.
  - rewrite <- list_fmap_compose. by apply list_fmap_ext.
  - unfold Room.connectedPlayers. simpl.
    rewrite (filter_fmap_stable _ _ _) by done.
    apply list_fmap_ext. intros j p _. f_equal.
    apply bool_decide_ext. split; congruence.
  - by rewrite list_lookup_fmap, Hnextp.
Qed.

Lemma playRounds_rotates (roomId : string) (words : list string) :
  ∀ (s : Server) (room : GameRoom) (i : nat),
    roomsCache s !! roomId = Some room →
    Room.gameStatus room = playing →
    NoDup (Player.id <$> Room.players room) →
    2 ≤ length (Room.connectedPlayers room) →
    i < length (Room.connectedPlayers room) →
    Room.drawingPlayerId room = connectedIds room !! i →
    (Room.currentRound room + Z.of_nat (length words) ≤ Room.totalRounds room)%Z →
    ∃ room',
      roomsCache (playRounds roomId words s) !! roomId = Some room'
      ∧ Room.gameStatus room' = playing
      ∧ Room.currentRound room'
        = (Room.currentRound room + Z.of_nat (length words))%Z
      ∧ connectedIds room' = connectedIds room
      ∧ Room.drawingPlayerId room'
        = connectedIds room
            !! ((i + length words) mod length (Room.connectedPlayers room)).
Proof.
  induction words as [|w words IH];
    intros s room i Hroom Hplaying Hnodup Hmany Hi Hdrawer Hmore.
  - exists room. simpl. rewrite Nat.add_0_r, Nat.mod_small by done.
    repeat split; (done || lia).
  - simpl in Hmore.
    destruct (roundEndAndAdvance_rotates s roomId room i w)
      as (room1 & Hroom1 & Hplaying1 & Hround1 & Htotal1 & Hids1 & Hconn1 & Hdrawer1);
      [done..|lia|].
    assert (Hcids : connectedIds room1 = connectedIds room).
    { unfold connectedIds. rewrite Hconn1, <- list_fmap_compose.
      by apply list_fmap_ext. }
    assert (Hlen : length (Room.connectedPlayers room1)
                   = length (Room.connectedPlayers room))
      by (by rewrite Hconn1, length_fmap).
    destruct (IH (roundEndAndAdvance roomId s w) room1
                ((i + 1) mod length (Room.connectedPlayers room)))
      as (room' & Hroom' & Hplaying' & Hround' & Hcids' & Hdrawer').
    + done.
    + done.
    + by rewrite Hids1.
    + lia.
    + rewrite Hlen. apply Nat.mod_upper_bound. lia.
    + by rewrite Hcids.
    + lia.
    + exists room'. simpl. split; [done|]. split; [done|].
      split; [lia|]. split; [congruence|].
      rewrite Hdrawer', Hcids, Hlen, Nat.Div0.add_mod_idemp_l.
      do 2 f_equal. lia.
Qed.

(** C5, as stated, fails when the game runs out of rounds: in a two-round
    game between two connected players the second round-end finishes the game
    and the drawer stays the second player. *)
Lemma drawer_rotation_counterexample :
  reachable anyEvent Sample.shortGame
  ∧ roomsCache Sample.shortGame !! "222222" = Some Sample.shortGameRoom
  ∧ length (Room.connectedPlayers Sample.shortGameRoom) = 2
  ∧ Room.drawingPlayerId Sample.shortGameRoom = Some "alice"
  ∧ ∃ room',
      roomsCache (playRounds "222222" ["dog"; "cat"] Sample.shortGame)
        !! "222222" = Some room'
      ∧ Room.gameStatus room' = gameEnd
      ∧ Room.drawingPlayerId room' = Some "bob".
Proof.
  split; [|split; [|split; [|split]]].
  - apply reachable_runAll; [constructor|apply traceAllowed_anyEvent].
  - by vm_compute.
  - reflexivity.
  - reflexivity.
  - eexists. split; [by vm_compute|]. by split.
Qed.

Example timedGame_outcome :
  (λ room, (Room.gameStatus room, Room.currentRound room,
            Room.drawingPlayerId room, Room.roundTimeLeft room))
    <$> roomsCache Sample.timedGame !! "333333"
  = Some (gameEnd, 2%Z, Some "bob", 0%Z)
  ∧ intervals Sample.timedGame = []
  ∧ timeouts Sample.timedGame = [].
Proof. by vm_compute. Qed.

(** C5, amended.  Rotation is cyclic over the connected players in join
    order: in a reachable playing room whose drawer is the [i]-th of [N >= 2]
    connected players, consecutive round-ends that each start a next round
    (the game has that many rounds to go), with nobody joining or leaving,
    move the drawer one connected player further each time, wrapping around;
    after [N] of them the drawer is the original one. *)
Theorem drawer_rotation_cyclic {engine : Js.Engine} (allowed : Server → Event → Prop) (s : Server)
    (roomId : string) (room : GameRoom) (i : nat) (words : list string) :
  reachable allowed s →
  roomsCache s !! roomId = Some room →
  Room.gameStatus room = playing →
  2 ≤ length (Room.connectedPlayers room) →
  i < length (Room.connectedPlayers room) →
  Room.drawingPlayerId room = connectedIds room !! i →
  (Room.currentRound room + Z.of_nat (length words) ≤ Room.totalRounds room)%Z →
  ∃ room',
    roomsCache (playRounds roomId words s) !! roomId = Some room'
    ∧ Room.gameStatus room' = playing
    ∧ connectedIds room' = connectedIds room
    ∧ Room.drawingPlayerId room'
      = connectedIds room
          !! ((i + length words) mod length (Room.connectedPlayers room))
    ∧ (length words = length (Room.connectedPlayers room) →
       Room.drawingPlayerId room' = Room.drawingPlayerId room).
Proof.
  intros Hreach Hroom Hplaying Hmany Hi Hdrawer Hmore.
  pose proof (reachable_invariant allowed s Hreach roomId room Hroom) as Hinv.
  destruct (playRounds_rotates roomId words s room i)
    as (room' & Hroom' & Hplaying' & _ & Hcids & Hdrawer');
    [done|done|apply (inv_ids _ _ Hinv)|done..|].
  exists room'. repeat split; [done..|].
  intros Hfull. rewrite Hdrawer', Hdrawer, Hfull.
  f_equal. rewrite <- Nat.Div0.add_mod_idemp_r, Nat.Div0.mod_same, Nat.add_0_r.
  by apply Nat.mod_small.
Qed.

Example longGame_room :
  roomsCache Sample.longGame !! "555555" = Some Sample.longGameRoom.
Proof. by vm_compute. Qed.

Lemma drawer_rotation_cyclic_witness :
  ∃ room',
    roomsCache (playRounds "555555" ["dog"; "cat"; "sun"] Sample.longGame)
      !! "555555" = Some room'
    ∧ Room.gameStatus room' = playing
    ∧ Room.drawingPlayerId room' = Some "alice".
Proof.
  destruct (drawer_rotation_cyclic anyEvent Sample.longGame "555555"
              Sample.longGameRoom 0 ["dog"; "cat"; "sun"])
    as (room' & Hroom' & Hplaying' & _ & _ & Hback).
  - apply reachable_runAll; [constructor|apply traceAllowed_anyEvent].
  - by vm_compute.
  - reflexivity.
  - vm_compute. lia.
  - vm_compute. lia.
  - reflexivity.
  - vm_compute. discriminate.
  - exists room'. repeat split; [done..|]. by rewrite Hback.
Defined.

Example rotation_sample :
  Room.drawingPlayerId
    <$> roomsCache (playRounds "555555" ["dog"] Sample.longGame) !! "555555"
    = Some (Some "bob")
  ∧ Room.drawingPlayerId
      <$> roomsCache (playRounds "555555" ["dog"; "cat"] Sample.longGame)
            !! "555555"
    = Some (Some "carol").
Proof. by vm_compute. Qed.

(* ===================================================================== *)
(** ** Countdowns per room *)
(* ===================================================================== *)




Lemma startRoundTimer_arms roomId s : armsAtMost roomId s (startRoundTimer roomId s).
Proof.
  unfold startRoundTimer, armsAtMost.
  destruct (roomsCache s !! roomId); [|auto]. case_decide; simpl; auto.
Qed.

Lemma endRoundTimeout_arms roomId randomWord s :
  armsAtMost roomId s (endRoundTimeout roomId randomWord s).
Proof.
  rewrite endRoundTimeout_eq; cbn zeta.
  destruct (roomsCache s !! roomId); [|by split; auto].
  repeat (case_decide; [by split; auto|]).
  destruct (Js.at_ _ _); [|by split; auto].
  apply (startRoundTimer_arms roomId (saveRooms s _)).
Qed.

Lemma startGame_arms roomId firstPlayerIndex randomWord s :
  armsAtMost roomId s (startGame roomId firstPlayerIndex randomWord s).1.
Proof.
  rewrite startGame_eq; cbn zeta.
  destruct (roomsCache s !! roomId); [|by split; auto].
  case_decide; [by split; auto|].
  destruct (_ !! firstPlayerIndex); [|by split; auto].
  apply (startRoundTimer_arms roomId (saveRooms s _)).
Qed.

Lemma endRound_timers roomId s :
  intervals (endRound roomId s).1 = intervals s
  ∧ (timeouts (endRound roomId s).1 = timeouts s
     ∨ timeouts (endRound roomId s).1 = timeouts s ++ [roomId]).
Proof.
  rewrite endRound_eq; cbn zeta. destruct (roomsCache s !! roomId); [|auto].
  case_decide; simpl; auto.
Qed.












Lemma interleaved_stepAll {engine : Js.Engine} allowed actions p :
  interleaved allowed p → scheduleAllowed allowed actions p →
  interleaved allowed (stepAll actions p).
Proof.
  revert p. induction actions as [|a actions IH]; intros p Hp Hall; [done|].
  destruct Hall as [Ha Hall]. apply IH; [|done]. by constructor.
Qed.

Lemma scheduleAllowed_anyAction {engine : Js.Engine} actions p :
  scheduleAllowed anyAction actions p.
Proof.
  revert p. induction actions as [|a actions IH]; intros p; [done|].
  split; [done|apply IH].
Qed.

Example startedTwice_intervals :
  intervals Sample.startedTwice = ["123456"; "123456"].
Proof. by vm_compute. Qed.


(** The amended discipline has to count the calls under way.  After two
    [startGame] packets that both arrive while the room has no countdown and
    no timeout, the two calls overlap: each updates the room and each arms
    a countdown. *)
Example overlapping_startGame :
  interleaved anyAction Demo.overlappingStarts
  ∧ armedFor "123456" (intervals (server Demo.overlappingStarts)) = 2.
Proof.
  split; [|by vm_compute].
  apply interleaved_stepAll; [constructor|apply scheduleAllowed_anyAction].
Qed.



(* ===================================================================== *)
(** ** Failures and pass-through *)
(* ===================================================================== *)

(** X1. How the calls fail.  A call that returns [{success: false}] has
    changed nothing, and its message is one of its own: "Room not found" for
    a name that is neither a room nor inherited by the registry, "Room is
    full", "Player not found in room", "Need at least 2 players to start",
    "Game is not in progress".  For a name the registry inherits (such as
    "constructor" or "toString") [joinRoom], [leaveRoom], [addMessage] and
    [startGame] throw instead; [startGame] also throws on a draw outside the
    connected players.  A call that throws has changed nothing either,
    with one exception: [addMessage] for "__proto__" has put
    [correctGuessers] on [Object.prototype].  [endRound] never throws. *)
Theorem failure_changes_nothing {engine : Js.Engine} (s : Server)
    (roomId : string) :
  (∀ player,
     (∀ reason, (joinRoom roomId player s).2 = Failure reason →
        (joinRoom roomId player s).1 = s
        ∧ (reason = "Room not found" ∧ roomsCache s !! roomId = None
             ∧ roomId ∉ inheritedKeys s
           ∨ reason = "Room is full" ∧ is_Some (roomsCache s !! roomId)))
     ∧ ((joinRoom roomId player s).2 = Throws →
        (joinRoom roomId player s).1 = s
        ∧ roomsCache s !! roomId = None ∧ roomId ∈ inheritedKeys s))
  ∧ (∀ playerId,
       (∀ reason, (leaveRoom roomId playerId s).2 = Failure reason →
          (leaveRoom roomId playerId s).1 = s
          ∧ (reason = "Room not found" ∧ roomsCache s !! roomId = None
               ∧ roomId ∉ inheritedKeys s
             ∨ reason = "Player not found in room"
               ∧ is_Some (roomsCache s !! roomId)))
       ∧ ((leaveRoom roomId playerId s).2 = Throws →
          (leaveRoom roomId playerId s).1 = s
          ∧ roomsCache s !! roomId = None ∧ roomId ∈ inheritedKeys s))
  ∧ (∀ message now,
       (∀ reason, (addMessage roomId message now s).2 = Failure reason →
          (addMessage roomId message now s).1 = s
          ∧ reason = "Room not found" ∧ roomsCache s !! roomId = None
          ∧ roomId ∉ inheritedKeys s)
       ∧ ((addMessage roomId message now s).2 = Throws →
          roomsCache s !! roomId = None ∧ roomId ∈ inheritedKeys s
          ∧ ((addMessage roomId message now s).1 = s
             ∨ roomId = "__proto__" ∧ ("correctGuessers" ∉ inheritedKeys s)
               ∧ (addMessage roomId message now s).1 = pollute s)))
  ∧ (∀ firstPlayerIndex randomWord,
       (∀ reason,
          (startGame roomId firstPlayerIndex randomWord s).2 = Failure reason →
          (startGame roomId firstPlayerIndex randomWord s).1 = s
          ∧ (reason = "Room not found" ∧ roomsCache s !! roomId = None
               ∧ roomId ∉ inheritedKeys s
             ∨ reason = "Need at least 2 players to start"
               ∧ is_Some (roomsCache s !! roomId)))
       ∧ ((startGame roomId firstPlayerIndex randomWord s).2 = Throws →
          (startGame roomId firstPlayerIndex randomWord s).1 = s
          ∧ (roomsCache s !! roomId = None ∧ roomId ∈ inheritedKeys s
             ∨ ∃ room, roomsCache s !! roomId = Some room
                       ∧ Room.connectedPlayers room !! firstPlayerIndex = None)))
  ∧ (endRound roomId s).2 ≠ Throws
  ∧ (∀ reason, (endRound roomId s).2 = Failure reason →
       (endRound roomId s).1 = s
       ∧ (reason = "Room not found" ∨ reason = "Game is not in progress")).
Proof.
  split; [|split; [|split; [|split; [|split]]]].
  - intros player. unfold joinRoom, notARoom.
    destruct (roomsCache s !! roomId) as [room|] eqn:Hroom.
    + repeat case_decide; simpl; (split; [intros reason Hr|intros Hr]);
        try done.
      injection Hr as <-. split; [done|]. right. by split.
    + case_decide; simpl; (split; [intros reason Hr|intros Hr]); try done.
      injection Hr as <-. split; [done|]. by left.
  - intros playerId. unfold leaveRoom, notARoom.
    destruct (roomsCache s !! roomId) as [room|] eqn:Hroom.
    + case_decide; simpl; (split; [intros reason Hr|intros Hr]); try done.
      injection Hr as <-. split; [done|]. right. by split.
    + case_decide; simpl; (split; [intros reason Hr|intros Hr]); try done.
      injection Hr as <-. split; [done|]. by left.
  - intros message now. unfold addMessage.
    destruct (roomsCache s !! roomId) as [room|] eqn:Hroom.
    + cbn zeta. case_decide; [destruct (negb _)|]; simpl;
        (split; [intros reason Hr|intros Hr]); done.
    + case_decide as Hin; simpl; (split; [intros reason Hr|intros Hr]);
        try done.
      * split; [done|]. split; [done|].
        case_decide as Hproto; [|by left]. right. by destruct Hproto.
      * injection Hr as <-. done.
  - intros firstPlayerIndex randomWord. rewrite startGame_eq. unfold notARoom.
    destruct (roomsCache s !! roomId) as [room|] eqn:Hroom.
    + case_decide.
      * simpl. split; [intros reason Hr|intros Hr]; [|done].
        injection Hr as <-. split; [done|]. right. by split.
      * destruct (_ !! firstPlayerIndex) eqn:Hdraw; simpl;
          (split; [intros reason Hr|intros Hr]); try done.
        split; [done|]. right. by exists room.
    + case_decide; simpl; (split; [intros reason Hr|intros Hr]); try done.
      * split; [done|]. by left.
      * injection Hr as <-. split; [done|]. by left.
  - rewrite endRound_eq. destruct (roomsCache s !! roomId); repeat case_decide; done.
  - intros reason. rewrite endRound_eq.
    destruct (roomsCache s !! roomId); repeat case_decide; simpl; intros Hr;
      try done; injection Hr as <-; auto.
Qed.

Lemma failure_changes_nothing_witness :
  (joinRoom "123456" Sample.mallory Demo.fullServer).1 = Demo.fullServer
  ∧ (joinRoom "constructor" Sample.mallory Demo.fullServer).1 = Demo.fullServer
  ∧ (startGame "654321" 0 "apple" Sample.lobbyServer).1 = Sample.lobbyServer
  ∧ (addMessage "__proto__" Sample.bobGuess 2000 Sample.server).1
    = pollute Sample.server.
Proof.
  split; [|split; [|split]].
  - refine (proj1 (proj1 (proj1 (failure_changes_nothing Demo.fullServer
                                   "123456") Sample.mallory)
                     "Room is full" _)).
    reflexivity.
  - refine (proj1 (proj2 (proj1 (failure_changes_nothing Demo.fullServer
                                   "constructor") Sample.mallory) _)).
    reflexivity.
  - refine (proj1 (proj1 (proj1 (proj2 (proj2 (proj2
              (failure_changes_nothing Sample.lobbyServer "654321")))) 0 "apple")
                     "Need at least 2 players to start" _)).
    reflexivity.
  - destruct (proj2 (proj1 (proj2 (proj2
                (failure_changes_nothing Sample.server "__proto__")))
                Sample.bobGuess 2000%Z) eq_refl) as (_ & _ & [Hsame | (_ & _ & Hpolluted)]).
    + discriminate Hsame.
    + exact Hpolluted.
Defined.



(* ===================================================================== *)
(** ** Joining again *)
(* ===================================================================== *)




(* ===================================================================== *)
(** ** Leaving, and coming back *)
(* ===================================================================== *)








(* ===================================================================== *)
(** ** Starting and ending rounds *)
(* ===================================================================== *)

(** X6. With at least two connected players [startGame] succeeds whatever
    the room's status, so it also restarts a game in progress: the room is
    playing round 1 with the drawn word, the drawn connected player is the
    drawer and the only flagged player (ids being distinct), every score is
    0, [correctGuessers] is empty, [roundTimeLeft] is the round duration and
    one countdown is added; names, connection flags, host, settings and the
    message log are kept. *)
Theorem startGame_starts (s : Server) (roomId : string) (room : GameRoom)
    (firstPlayerIndex : nat) (first : GamePlayer) (randomWord : string) :
  roomsCache s !! roomId = Some room →
  2 ≤ length (Room.connectedPlayers room) →
  Room.connectedPlayers room !! firstPlayerIndex = Some first →
  ∃ room',
    startGame roomId firstPlayerIndex randomWord s
      = (mkServer (<[roomId := room']> (roomsCache s))
                  (intervals s ++ [roomId]) (timeouts s) (inheritedKeys s),
         Success room')
    ∧ Room.gameStatus room' = playing
    ∧ Room.currentRound room' = 1%Z
    ∧ Room.currentWord room' = randomWord
    ∧ Room.drawingPlayerId room' = Some (Player.id first)
    ∧ Room.roundTimeLeft room' = Settings.roundDuration (Room.settings room)
    ∧ Room.correctGuessers room' = Some []
    ∧ (Room.id room', Room.hostId room', Room.settings room',
       Room.messages room', Room.totalRounds room', Room.createdAt room')
      = (Room.id room, Room.hostId room, Room.settings room,
         Room.messages room, Room.totalRounds room, Room.createdAt room)
    ∧ length (Room.players room') = length (Room.players room)
    ∧ (∀ i p, Room.players room !! i = Some p →
         ∃ p', Room.players room' !! i = Some p'
               ∧ (Player.id p', Player.name p', Player.avatar p',
                  Player.isConnected p')
                 = (Player.id p, Player.name p, Player.avatar p,
                    Player.isConnected p)
               ∧ Player.score p' = 0%Z
               ∧ (Player.isDrawing p' = true ↔ Player.id p = Player.id first))
    ∧ (NoDup (Player.id <$> Room.players room) →
       ∀ p', p' ∈ Room.players room' → Player.isDrawing p' = true →
             Player.isConnected p' = true ∧ Player.id p' = Player.id first).
Proof.
  intros Hroom Hmany Hfirst. rewrite startGame_eq; cbn zeta. rewrite Hroom.
  rewrite decide_False by lia. cbn zeta. rewrite Hfirst.
  erewrite startRoundTimer_playing;
    [|simpl; apply lookup_insert_eq|reflexivity].
  eexists. split; [reflexivity|]. simpl.
  repeat (split; [done|]). split; [by rewrite length_fmap|]. split.
  - intros i p Hp. rewrite list_lookup_fmap, Hp. simpl. eexists.
    split; [reflexivity|]. simpl. split; [done|]. split; [done|].
    apply bool_decide_eq_true.
  - intros Hnodup p' Hp' Hflag.
    apply list_elem_of_fmap in Hp' as (p & -> & Hp). simpl in *.
    apply bool_decide_eq_true in Hflag. split; [|done].
    apply list_elem_of_lookup_2, elem_of_connectedPlayers in Hfirst
      as [Hconnected Hin].
    by rewrite (NoDup_fmap_inj Player.id _ p first Hnodup Hp Hin Hflag).
Qed.

Lemma startGame_starts_witness :
  ∃ room',
    (startGame "123456" 1 "dog" Demo.lateServer).2 = Success room'
    ∧ intervals (startGame "123456" 1 "dog" Demo.lateServer).1
      = ["123456"; "123456"]
    ∧ Room.currentRound room' = 1%Z
    ∧ Room.players room'
      = [ Player.mk "alice" "Alice" Js.missing 0 false true;
          Player.mk "bob" "Bob" Js.missing 0 true true;
          Player.mk "carol" "Carol" Js.missing 0 false true ].
Proof.
  destruct (startGame_starts Demo.lateServer "123456" Demo.lateRoom 1
              (Player.mk "bob" "Bob" Js.missing 100 false true) "dog")
    as (room' & Hrun & _ & Hround & _).
  - reflexivity.
  - vm_compute. lia.
  - reflexivity.
  - exists room'. rewrite Hrun. simpl. split; [done|]. split; [done|].
    split; [done|].
    vm_compute in Hrun. by injection Hrun as <-.
Defined.

(** X7. [endRound] is idempotent: calling it again before the continuation
    has fired changes nothing, and for an existing room the second call is
    answered "Game is not in progress".  So one round-end schedules one
    continuation only. *)
Theorem endRound_idempotent (s : Server) (roomId : string) :
  (endRound roomId (endRound roomId s).1).1 = (endRound roomId s).1
  ∧ (is_Some (roomsCache s !! roomId) →
     (endRound roomId (endRound roomId s).1).2
       = Failure "Game is not in progress").
Proof.
  destruct (roomsCache s !! roomId) as [room|] eqn:Hroom.
  - destruct (decide (Room.gameStatus room ≠ playing)) as [Hnot|Hplaying].
    + assert (Hfail : endRound roomId s = (s, Failure "Game is not in progress")).
      { rewrite endRound_eq; cbn zeta. rewrite Hroom. by rewrite decide_True. }
      rewrite Hfail. simpl. by rewrite Hfail.
    + assert (Hdone : endRound roomId s
                = (mkServer (<[roomId := Room.with_gameStatus room roundEnd]>
                               (roomsCache s))
                            (intervals s) (timeouts s ++ [roomId]) (inheritedKeys s), Success tt)).
      { rewrite endRound_eq; cbn zeta. rewrite Hroom. by rewrite decide_False. }
      rewrite Hdone. simpl. rewrite endRound_eq; cbn zeta. simpl.
      rewrite lookup_insert_eq. by simpl.
  - assert (Hfail : ∃ reason, endRound roomId s = (s, Failure reason)).
    { rewrite endRound_eq; cbn zeta. rewrite Hroom. case_decide; by eexists. }
    destruct Hfail as [reason Hfail].
    rewrite Hfail. simpl. rewrite Hfail. split; [done|]. by intros [? ?].
Qed.

Lemma endRound_idempotent_witness :
  (endRound "123456" (endRound "123456" Sample.server).1).2
    = Failure "Game is not in progress"
  ∧ timeouts (endRound "123456" (endRound "123456" Sample.server).1).1
    = ["123456"].
Proof.
  split.
  - apply (endRound_idempotent Sample.server "123456"). by eexists.
  - rewrite (proj1 (endRound_idempotent Sample.server "123456")). reflexivity.
Defined.

(* ===================================================================== *)
(** ** Sweeping twice *)
(* ===================================================================== *)

Lemma expired_later (now later : Z) (room : GameRoom) :
  (now ≤ later)%Z → expired now room → expired later room.
Proof.
  intros Hle [Hnone|Hold]; [by left|]. right.
  destruct (Room.createdAt room); [|done].
  unfold olderThanSixHours in *. lia.
Qed.

(** X8. A later sweep subsumes an earlier one: sweeping at [now] and then
    at [later >= now] leaves the same server as sweeping once at [later].
    With [later = now]: a sweep is idempotent. *)
Theorem cleanupRooms_subsumed (now later : Z) (s : Server) :
  (now ≤ later)%Z →
  cleanupRooms later (cleanupRooms now s) = cleanupRooms later s.
Proof.
  intros Hle. unfold cleanupRooms at 1 3. unfold saveRooms. f_equal.
  apply map_eq. intros k. rewrite !cleanup_fold_lookup.
  change (roomsCache (cleanupRooms now s))
    with (map_fold (cleanupRoom now) (roomsCache s) (roomsCache s)).
  rewrite cleanup_fold_lookup.
  destruct (roomsCache s !! k) as [room|] eqn:Hroom; [|done].
  destruct (decide (expired now room)) as [Hnow|Hnow].
  - rewrite decide_True; [done|]. by eapply expired_later.
  - by destruct (decide (expired later room)).
Qed.

Lemma cleanupRooms_subsumed_witness :
  cleanupRooms 5000 (cleanupRooms 5000 Sample.lobbyServer)
    = cleanupRooms 5000 Sample.lobbyServer.
Proof. apply cleanupRooms_subsumed. lia. Defined.

(* ===================================================================== *)
(** ** The [createRoom] handler *)
(* ===================================================================== *)



(* ===================================================================== *)
(** ** Counting a round down *)
(* ===================================================================== *)

(** One firing of a countdown whose room is playing, computed. *)
Lemma countdownTick_playing (s : Server) (k : nat) (roomId : string)
    (room : GameRoom) :
  intervals s !! k = Some roomId →
  roomsCache s !! roomId = Some room →
  Room.gameStatus room = playing →
  countdownTick k s
  = if decide (Room.roundTimeLeft room - 1 ≤ 0)%Z then
      mkServer
        (<[roomId := Room.with_gameStatus
                       (Room.with_roundTimeLeft room (Room.roundTimeLeft room - 1))
                       roundEnd]> (roomsCache s))
        (delete k (intervals s)) (timeouts s ++ [roomId]) (inheritedKeys s)
    else
      mkServer
        (<[roomId := Room.with_roundTimeLeft room (Room.roundTimeLeft room - 1)]>
           (roomsCache s))
        (intervals s) (timeouts s) (inheritedKeys s).
Proof.
  intros Hk Hroom Hplaying. rewrite countdownTick_eq; cbn zeta. rewrite Hk, Hroom.
  rewrite decide_False by (intros Hne; by apply Hne). cbn zeta.
  change (Room.roundTimeLeft (Room.with_roundTimeLeft room _))
    with (Room.roundTimeLeft room - 1)%Z.
  destruct (decide (Room.roundTimeLeft room - 1 ≤ 0)%Z); [|done].
  unfold clearInterval. rewrite endRound_eq; cbn zeta. simpl. rewrite lookup_insert_eq. simpl.
  rewrite decide_False by (intros Hne; by apply Hne). simpl.
  by rewrite insert_insert_eq.
Qed.



Example timed_round :
  roomsCache (ticks 41 0 Sample.server) !! "123456"
    = Some (Room.with_roundTimeLeft Sample.room 1)
  ∧ ticks 42 0 Sample.server
    = mkServer {[ "123456" := Room.with_gameStatus
                                (Room.with_roundTimeLeft Sample.room 0) roundEnd ]}
               [] ["123456"] Js.objectPrototype.
Proof. split; by vm_compute. Qed.


(** One firing of a countdown whose room is gone or not playing, computed. *)
Lemma stale_countdown_computes (s : Server) (k : nat) (roomId : string) :
  intervals s !! k = Some roomId →
  (roomsCache s !! roomId = None
   ∨ ∃ room, roomsCache s !! roomId = Some room
             ∧ Room.gameStatus room ≠ playing) →
  countdownTick k s
  = mkServer (roomsCache s) (delete k (intervals s)) (timeouts s) (inheritedKeys s).
Proof.
  intros Hk Hstale. rewrite countdownTick_eq; cbn zeta. rewrite Hk.
  destruct Hstale as [-> | (room & -> & Hnot)]; [done|].
  by rewrite decide_True.
Qed.

(** X11. A countdown whose room has been deleted, or is no longer playing,
    stops at its next tick and does nothing else: no room changes, nothing is
    scheduled, and the other countdowns stay. *)
Theorem stale_countdown_stops (s : Server) (k : nat) (roomId : string) :
  intervals s !! k = Some roomId →
  (roomsCache s !! roomId = None
   ∨ ∃ room, roomsCache s !! roomId = Some room
             ∧ Room.gameStatus room ≠ playing) →
  countdownTick k s
  = mkServer (roomsCache s) (delete k (intervals s)) (timeouts s) (inheritedKeys s).
Proof. apply stale_countdown_computes. Qed.

Lemma stale_countdown_stops_witness :
  countdownTick 0 (cleanupRooms 99999999 Sample.server) = mkServer ∅ [] [] Js.objectPrototype.
Proof.
  rewrite (stale_countdown_stops _ 0 "123456").
  - by vm_compute.
  - reflexivity.
  - left. by vm_compute.
Defined.

(* ===================================================================== *)
(** ** The shape of reachable rooms *)
(* ===================================================================== *)

Lemma shape_fresh (roomId hostId : string) (settings : GameSettings) (now : Z) :
  roomShape
    (Room.mk roomId hostId settings [] [] 0 (Settings.rounds settings) ""
             None waiting (Settings.roundDuration settings) (Some []) (Some now)).
Proof.
  split; simpl; try done.
  - lia.
  - lia.
  - intros p Hp. by apply elem_of_nil in Hp.
  - constructor.
  - intros m Hm. by apply elem_of_nil in Hm.
Qed.

Lemma shape_with_hostId room v :
  roomShape room → roomShape (Room.with_hostId room v).
Proof. by intros []. Qed.

Lemma shape_with_roundTimeLeft room v :
  roomShape room → roomShape (Room.with_roundTimeLeft room v).
Proof. by intros []. Qed.

Lemma shape_with_gameStatus room v :
  (Room.currentRound room = 0%Z → v ≠ playing ∧ v ≠ roundEnd) →
  roomShape room → roomShape (Room.with_gameStatus room v).
Proof.
  intros Hv []. split; try done. simpl. intros Hround.
  destruct (Hv Hround) as [? ?]. destruct (shape_unstarted0 Hround) as (_ & _ & ?).
  done.
Qed.

Lemma shape_with_messages room stored :
  (Message.isCorrect stored = true → Message.text stored = guessedMarker) →
  roomShape room →
  roomShape (Room.with_messages room (Room.messages room ++ [stored])).
Proof.
  intros Hstored []. split; try done. simpl. intros m Hm Hcorrect.
  apply elem_of_app in Hm as [Hm|Hm]; [eauto|].
  apply list_elem_of_singleton in Hm as ->. eauto.
Qed.

(** [if (!room.correctGuessers) room.correctGuessers = []] changes nothing
    that is ever read. *)
Lemma shape_guessers_initialised room :
  roomShape room →
  roomShape (Room.with_correctGuessers room (Room.guessers room)).
Proof. by intros []. Qed.

(** Replacing the players by as many records with the same ids and scores,
    among which somebody is connected. *)
Lemma shape_with_players room players' :
  roomShape room →
  length players' = length (Room.players room) →
  Player.id <$> players' = Player.id <$> Room.players room →
  (∀ p', p' ∈ players' →
     ∃ p, p ∈ Room.players room ∧ Player.id p' = Player.id p
          ∧ Player.score p' = Player.score p) →
  (players' ≠ [] → filter (λ p, Player.isConnected p) players' ≠ []) →
  roomShape (Room.with_players room players').
Proof.
  intros [Hcap Hround Hun Hdrawer Hscores Hguessers Hconn Hlog] Hlen Hids Hsame Hc.
  split; simpl; try done.
  - by rewrite Hlen.
  - by rewrite Hids.
  - intros p' Hp'. destruct (Hsame p' Hp') as (p & Hp & Hid & Hscore).
    unfold scoreBound in *. simpl. rewrite Hid, Hscore. by apply Hscores.
Qed.

Lemma shape_push room player :
  roomShape room →
  (Z.of_nat (length (Room.players room))
   < Settings.maxPlayers (Room.settings room))%Z →
  roomShape (Room.with_players room (Room.players room ++ [newPlayer player])).
Proof.
  intros [Hcap Hround Hun Hdrawer Hscores Hguessers Hconn Hlog] Hroom.
  split; simpl; try done.
  - rewrite length_app. simpl. lia.
  - intros Hstarted. destruct (Hdrawer Hstarted) as (d & Hd & Hin).
    exists d. split; [done|]. rewrite fmap_app. apply elem_of_app. by left.
  - intros p Hp. apply elem_of_app in Hp as [Hp|Hp]; [by apply Hscores|].
    apply list_elem_of_singleton in Hp as ->. unfold scoreBound. simpl.
    case_bool_decide; lia.
  - intros _. unfold Room.connectedPlayers. simpl. rewrite filter_app.
    intros Hnil. apply app_eq_nil in Hnil as [_ Hnil]. done.
Qed.

(** The scoring branch of [addMessage]. *)
Lemma shape_scored room author players' :
  roomShape room →
  Room.gameStatus room = playing →
  author ∉ Room.guessers room →
  players' = Room.players room
  ∨ (∃ n x, Room.players room !! n = Some x ∧ Player.id x = author
            ∧ players' = alter (λ p, Player.with_score p (Player.score p + 100)%Z)
                               n (Room.players room)) →
  roomShape
    (Room.with_players
       (Room.with_correctGuessers room (Room.guessers room ++ [author]))
       players').
Proof.
  intros [Hcap Hround Hun Hdrawer Hscores Hguessers Hconn Hlog]
         Hplaying Hfresh Hplayers.
  assert (Hstarted : (1 ≤ Room.currentRound room)%Z).
  { destruct (decide (Room.currentRound room = 0%Z)) as [Hzero|?]; [|lia].
    by destruct (Hun Hzero) as [? _]. }
  assert (Hgrow : ∀ p, p ∈ Room.players room →
            (0 ≤ Player.score p
             ≤ scoreBound (Room.with_correctGuessers room
                             (Room.guessers room ++ [author])) p)%Z).
  { intros p Hp. specialize (Hscores p Hp). unfold scoreBound in *. simpl.
    destruct (decide (Player.id p ∈ Room.guessers room)) as [Hin|Hnin].
    - rewrite bool_decide_eq_true_2 in Hscores by done.
      rewrite bool_decide_eq_true_2; [lia|]. apply elem_of_app. by left.
    - rewrite bool_decide_eq_false_2 in Hscores by done.
      case_bool_decide; lia. }
  split; simpl.
  - destruct Hplayers as [-> | (n & x & _ & _ & ->)]; [done|].
    by rewrite length_alter.
  - done.
  - intros Hzero. lia.
  - intros _. destruct (Hdrawer Hstarted) as (d & Hd & Hin).
    exists d. split; [done|].
    destruct Hplayers as [-> | (n & x & _ & _ & ->)]; [done|].
    by rewrite fmap_alter_same.
  - destruct Hplayers as [-> | (n & x & Hn & Hid & ->)]; [done|].
    intros p' Hp'. apply elem_of_alter in Hp' as [Hp'|(y & Hy & ->)]; [eauto|].
    assert (y = x) as -> by congruence.
    pose proof (Hscores x (list_elem_of_lookup_2 _ _ _ Hn)) as Hx.
    unfold scoreBound in *. simpl.
    rewrite bool_decide_eq_false_2 in Hx by by rewrite Hid.
    rewrite bool_decide_eq_true_2; [lia|].
    apply elem_of_app. right. rewrite Hid. by apply list_elem_of_singleton.
  - apply NoDup_app. split; [done|]. split; [|apply NoDup_singleton].
    intros g Hg Hlast. apply list_elem_of_singleton in Hlast as ->. done.
  - destruct Hplayers as [-> | (n & x & Hn & Hid & ->)]; [done|].
    intros Hne. unfold Room.connectedPlayers. simpl.
    assert (Hsome : Room.players room ≠ [])
      by (intros Hnil; by rewrite Hnil in Hn).
    specialize (Hconn Hsome).
    destruct (Room.connectedPlayers room) as [|c rest] eqn:Hc; [done|].
    assert (Hin : c ∈ Room.connectedPlayers room) by (rewrite Hc; left).
    apply elem_of_connectedPlayers in Hin as [Hcc Hcin].
    apply list_elem_of_lookup in Hcin as [m Hm].
    intros Hnil.
    apply (filter_nil_not_elem_of _ _
             (if decide (m = n) then Player.with_score c (Player.score c + 100)%Z
              else c) Hnil).
    + case_decide; simpl; by rewrite Hcc.
    + apply list_elem_of_lookup. exists m. rewrite list_lookup_alter.
      case_decide as Heq.
      * subst m. rewrite decide_True by done. by rewrite Hm.
      * by rewrite decide_False by congruence.
  - done.
Qed.

(** The record [startGame] and the next-round branch build, for the round
    number [round] they set. *)
Lemma shape_new_round room drawer (rename : GamePlayer → GamePlayer)
    (round : Z) word timeLeft :
  roomShape room →
  drawer ∈ Room.connectedPlayers room →
  (1 ≤ round ≤ Z.max 1 (Room.totalRounds room))%Z →
  (∀ p, Player.id (rename p) = Player.id p
        ∧ Player.isConnected (rename p) = Player.isConnected p) →
  (∀ p, p ∈ Room.players room →
        (0 ≤ Player.score (rename p) ≤ 100 * (round - 1))%Z) →
  roomShape
    (Room.mk (Room.id room) (Room.hostId room) (Room.settings room)
             (rename <$> Room.players room) (Room.messages room) round
             (Room.totalRounds room) word (Some (Player.id drawer)) playing
             timeLeft (Some []) (Room.createdAt room)).
Proof.
  intros [Hcap Hround Hun Hdrawer Hscores Hguessers Hconn Hlog]
         Hin Hnew Hrename Hnewscores.
  apply elem_of_connectedPlayers in Hin as [Hdc Hdin].
  assert (Hids : Player.id <$> (rename <$> Room.players room)
                 = Player.id <$> Room.players room).
  { rewrite <- list_fmap_compose. apply list_fmap_ext. intros i p _. simpl.
    apply Hrename. }
  split; simpl.
  - by rewrite length_fmap.
  - lia.
  - intros Hzero. lia.
  - intros _. exists (Player.id drawer). split; [done|].
    rewrite Hids. by apply list_elem_of_fmap_2.
  - intros p' Hp'. apply list_elem_of_fmap in Hp' as (p & -> & Hp).
    specialize (Hnewscores p Hp). unfold scoreBound. simpl.
    try rewrite bool_decide_eq_false_2 by apply not_elem_of_nil. lia.
  - constructor.
  - intros _. unfold Room.connectedPlayers. simpl.
    rewrite (filter_fmap_stable _ rename); [|intros p; by rewrite (proj2 (Hrename p))].
    intros Hnil. apply fmap_nil_inv in Hnil.
    apply (filter_nil_not_elem_of _ _ drawer Hnil); [by rewrite Hdc|done].
  - done.
Qed.

Lemma roomsShape_insert rooms roomId room :
  roomsShape rooms → Room.id room = roomId → roomShape room →
  roomsShape (<[roomId := room]> rooms).
Proof.
  intros Hrooms Hid Hroom k r. rewrite lookup_insert. case_decide.
  - intros [= <-]. by subst.
  - apply Hrooms.
Qed.

Lemma roomsShape_delete rooms roomId :
  roomsShape rooms → roomsShape (delete roomId rooms).
Proof.
  intros Hrooms k r. rewrite lookup_delete. case_decide; [done|apply Hrooms].
Qed.

Lemma createRoom_shape roomId hostId settings now s :
  roomsShape (roomsCache s) →
  roomsShape (roomsCache (createRoom roomId hostId settings now s).1).
Proof. intros Hs. apply roomsShape_insert; [done..|apply shape_fresh]. Qed.

Lemma joinRoom_shape roomId player s :
  roomsShape (roomsCache s) →
  roomsShape (roomsCache (joinRoom roomId player s).1).
Proof.
  intros Hs. unfold joinRoom.
  destruct (roomsCache s !! roomId) as [room|] eqn:Hroom; [|done].
  destruct (Hs _ _ Hroom) as [Hkey Hshape].
  set (f := λ p : GamePlayer, bool_decide (Player.id p = User.id player)).
  destruct (decide (Js.findIndex f (Room.players room) ≠ (-1)%Z)) as [Hfound|Hnone].
  - destruct (findIndex_found f _ Hfound) as (n & x & Hidx & Hn & Hx & _).
    apply bool_decide_eq_true in Hx. rewrite Hidx, Nat2Z.id.
    apply roomsShape_insert; [done..|].
    apply shape_with_players; [done|by rewrite length_alter|..].
    + apply fmap_alter_same. intros y Hy. assert (y = x) as -> by congruence. done.
    + intros p' Hp'.
      apply elem_of_alter in Hp' as [Hp'|(y & Hy & ->)]; [by exists p'|].
      exists y. split; [by eapply list_elem_of_lookup_2|].
      assert (y = x) as -> by congruence. done.
    + intros _ Hnil.
      apply (filter_nil_not_elem_of _ _ (rejoin player x) Hnil); [done|].
      apply list_elem_of_lookup. exists n.
      by rewrite list_lookup_alter, decide_True, Hn.
  - case_decide as Hfull; [done|].
    apply roomsShape_insert; [done..|]. apply shape_push; [done|lia].
Qed.

Lemma leaveRoom_shape roomId playerId s :
  roomsShape (roomsCache s) →
  roomsShape (roomsCache (leaveRoom roomId playerId s).1).
Proof.
  intros Hs. unfold leaveRoom.
  destruct (roomsCache s !! roomId) as [room|] eqn:Hroom; [|done].
  destruct (Hs _ _ Hroom) as [Hkey Hshape].
  case_decide; [|done]. cbn zeta.
  set (room' := Room.with_players room _). simpl.
  destruct (Room.connectedPlayers room') as [|first rest] eqn:Hconn.
  - by apply roomsShape_delete.
  - assert (Hshape' : roomShape room').
    { apply shape_with_players; [done|by rewrite length_alter|..].
      - by apply fmap_alter_same.
      - intros p' Hp'.
        apply elem_of_alter in Hp' as [Hp'|(y & Hy & ->)]; [by exists p'|].
        exists y. split; [by eapply list_elem_of_lookup_2|]. done.
      - intros _. change (Room.connectedPlayers room' ≠ []). by rewrite Hconn. }
    case_decide; apply roomsShape_insert; try done.
    by apply shape_with_hostId.
Qed.

Lemma addMessage_shape {engine : Js.Engine} roomId message now s :
  roomsShape (roomsCache s) →
  roomsShape (roomsCache (addMessage roomId message now s).1).
Proof.
  intros Hs. unfold addMessage.
  destruct (roomsCache s !! roomId) as [room|] eqn:Hroom;
    [|by repeat case_decide].
  destruct (Hs _ _ Hroom) as [Hkey Hshape]. cbn zeta.
  set (room1 := Room.with_correctGuessers room (Room.guessers room)).
  assert (Hshape1 : roomShape room1) by by apply shape_guessers_initialised.
  assert (Hkey1 : Room.id room1 = roomId) by done.
  clearbody room1.
  case_decide as Hguess.
  - destruct (Js.includes _ _) eqn:Hseen; cbv beta iota zeta; cbn [negb fst].
    + apply roomsShape_insert; [done..|]. by apply (shape_with_messages room1).
    + set (room3 := if decide _ then _ else _).
      assert (Hshape3 : roomShape room3 ∧ Room.id room3 = roomId).
      { destruct Hguess as (Hplaying & _ & _).
        assert (Hfresh : User.id (Message.in_user message) ∉ Room.guessers room1).
        { unfold Js.includes in Hseen. by apply bool_decide_eq_false in Hseen. }
        unfold room3. case_decide as Hfound.
        - destruct (findIndex_found _ _ Hfound) as (n & x & Hidx & Hn & Hx & _).
          apply bool_decide_eq_true in Hx. rewrite Hidx, Nat2Z.id.
          split; [|done].
          apply (shape_scored room1); [done..|]. right. by exists n, x.
        - split; [|done].
          apply (shape_scored room1 _ (Room.players room1)); [done..|by left]. }
      clearbody room3. destruct Hshape3 as [Hshape3 Hkey3].
      apply roomsShape_insert; [done..|]. by apply (shape_with_messages room3).
  - cbv beta iota zeta. cbn [fst].
    apply roomsShape_insert; [done..|]. by apply (shape_with_messages room1).
Qed.

Lemma startGame_shape roomId firstPlayerIndex randomWord s :
  roomsShape (roomsCache s) →
  roomsShape (roomsCache (startGame roomId firstPlayerIndex randomWord s).1).
Proof.
  intros Hs. rewrite startGame_eq; cbn zeta.
  destruct (roomsCache s !! roomId) as [room|] eqn:Hroom; [|done].
  destruct (Hs _ _ Hroom) as [Hkey Hshape].
  case_decide; [done|].
  destruct (Room.connectedPlayers room !! firstPlayerIndex) as [first|] eqn:Hfirst;
    [|done].
  simpl. rewrite roomsCache_startRoundTimer. simpl.
  apply roomsShape_insert; [done..|].
  apply (shape_new_round room first); [done| |lia|done|].
  - by eapply list_elem_of_lookup_2.
  - intros p _. simpl. lia.
Qed.

Lemma endRound_shape roomId s :
  roomsShape (roomsCache s) →
  roomsShape (roomsCache (endRound roomId s).1).
Proof.
  intros Hs. rewrite endRound_eq; cbn zeta.
  destruct (roomsCache s !! roomId) as [room|] eqn:Hroom; [|done].
  destruct (Hs _ _ Hroom) as [Hkey Hshape].
  case_decide as Hplaying; [done|]. simpl.
  apply roomsShape_insert; [done..|].
  apply shape_with_gameStatus; [|done].
  intros Hzero. destruct (shape_unstarted _ Hshape Hzero) as [Hnot _].
  by destruct Hplaying.
Qed.

Lemma endRoundTimeout_shape roomId randomWord s :
  roomsShape (roomsCache s) →
  roomsShape (roomsCache (endRoundTimeout roomId randomWord s)).
Proof.
  intros Hs. rewrite endRoundTimeout_eq; cbn zeta.
  destruct (roomsCache s !! roomId) as [room|] eqn:Hroom; [|done].
  destruct (Hs _ _ Hroom) as [Hkey Hshape].
  case_decide as Hlast.
  { apply roomsShape_insert; [done..|]. by apply shape_with_gameStatus. }
  case_decide.
  { apply roomsShape_insert; [done..|]. by apply shape_with_gameStatus. }
  destruct (Js.at_ _ _) as [next|] eqn:Hnext; [|done].
  rewrite roomsCache_startRoundTimer. simpl.
  apply roomsShape_insert; [done..|].
  pose proof (shape_round _ Hshape) as Hround.
  apply (shape_new_round room next); [done| |lia|done|].
  - apply at_lookup in Hnext as [_ Hnext]. by eapply list_elem_of_lookup_2.
  - intros p Hp. simpl.
    pose proof (shape_scores _ Hshape p Hp) as Hscore. unfold scoreBound in Hscore.
    destruct (decide (Room.currentRound room = 0%Z)) as [Hzero|Hstarted].
    + destruct (shape_unstarted _ Hshape Hzero) as (_ & _ & _ & _ & Hnone).
      rewrite Hnone in Hscore.
      rewrite bool_decide_eq_false_2 in Hscore by apply not_elem_of_nil. lia.
    + case_bool_decide; lia.
Qed.

Lemma countdownTick_shape k s :
  roomsShape (roomsCache s) → roomsShape (roomsCache (countdownTick k s)).
Proof.
  intros Hs. rewrite countdownTick_eq; cbn zeta. destruct (intervals s !! k) as [roomId|]; [|done].
  destruct (roomsCache s !! roomId) as [room|] eqn:Hroom; [|done].
  destruct (Hs _ _ Hroom) as [Hkey Hshape].
  case_decide; [done|]. cbn zeta.
  assert (roomsShape
            (<[roomId := Room.with_roundTimeLeft room (Room.roundTimeLeft room - 1)]>
               (roomsCache s))) as Hticked.
  { apply roomsShape_insert; [done..|]. by apply shape_with_roundTimeLeft. }
  case_decide; [|done]. by apply endRound_shape.
Qed.

Lemma run_shape {engine : Js.Engine} e s :
  roomsShape (roomsCache s) → roomsShape (roomsCache (run e s)).
Proof.
  intros Hs. destruct e; simpl.
  - by apply createRoom_shape.
  - by apply joinRoom_shape.
  - by apply leaveRoom_shape.
  - by apply addMessage_shape.
  - by apply startGame_shape.
  - by apply endRound_shape.
  - by apply countdownTick_shape.
  - unfold fireTimeout, timeoutFired. destruct (timeouts s !! k); [|done].
    by apply endRoundTimeout_shape.
  - intros roomId room. rewrite cleanup_fold_lookup.
    destruct (roomsCache s !! roomId) as [room0|] eqn:Hroom; [|done].
    case_decide; [done|]. intros [= <-]. by apply Hs.
Qed.

Lemma reachable_shape {engine : Js.Engine} allowed s :
  reachable allowed s → roomsShape (roomsCache s).
Proof.
  induction 1 as [|s e _ IH _].
  - intros roomId room. simpl. by rewrite lookup_empty.
  - by apply run_shape.
Qed.

Example played_room :
  roomsCache Demo.played !! "123456" = Some Demo.playedRoom.
Proof. by vm_compute. Qed.

Lemma played_reachable : reachable anyEvent Demo.played.
Proof. apply reachable_runAll; [constructor|apply traceAllowed_anyEvent]. Qed.

(** X12. A room never holds more players than [settings.maxPlayers] (none
    at all when that is negative), and it is stored under its own id. *)
Theorem room_capacity_respected {engine : Js.Engine} (allowed : Server → Event → Prop) (s : Server)
    (roomId : string) (room : GameRoom) :
  reachable allowed s →
  roomsCache s !! roomId = Some room →
  Room.id room = roomId
  ∧ (Z.of_nat (length (Room.players room))
     ≤ Z.max 0 (Settings.maxPlayers (Room.settings room)))%Z.
Proof.
  intros Hreach Hroom.
  destruct (reachable_shape allowed s Hreach roomId room Hroom) as [Hkey Hshape].
  split; [done|]. apply (shape_capacity _ Hshape).
Qed.

Lemma room_capacity_respected_witness :
  Room.id Demo.playedRoom = "123456"
  ∧ (Z.of_nat (length (Room.players Demo.playedRoom)) ≤ Z.max 0 4)%Z.
Proof.
  apply (room_capacity_respected anyEvent Demo.played "123456" Demo.playedRoom).
  - apply played_reachable.
  - by vm_compute.
Defined.

(** X13. No double credit: a player's score is never negative and never
    exceeds 100 points per round of the current game -- 100 for each earlier
    round, plus 100 only if the player is among the current round's
    [correctGuessers]. *)
Theorem score_bounded_by_rounds {engine : Js.Engine} (allowed : Server → Event → Prop) (s : Server)
    (roomId : string) (room : GameRoom) (p : GamePlayer) :
  reachable allowed s →
  roomsCache s !! roomId = Some room →
  p ∈ Room.players room →
  (0 ≤ Player.score p ≤ scoreBound room p)%Z
  ∧ (Player.score p ≤ 100 * Room.currentRound room)%Z.
Proof.
  intros Hreach Hroom Hp.
  destruct (reachable_shape allowed s Hreach roomId room Hroom) as [_ Hshape].
  pose proof (shape_scores _ Hshape p Hp) as Hscore.
  pose proof (shape_round _ Hshape) as Hround.
  split; [done|]. unfold scoreBound in Hscore.
  destruct (decide (Room.currentRound room = 0%Z)) as [Hzero|Hstarted].
  - destruct (shape_unstarted _ Hshape Hzero) as (_ & _ & _ & _ & Hnone).
    rewrite Hnone in Hscore.
    rewrite bool_decide_eq_false_2 in Hscore by apply not_elem_of_nil. lia.
  - case_bool_decide; lia.
Qed.

Lemma score_bounded_by_rounds_witness :
  (0 ≤ 100 ≤ scoreBound Demo.playedRoom (Player.mk "bob" "Bob" Js.missing 100 false true))%Z
  ∧ (100 ≤ 100 * 1)%Z.
Proof.
  apply (score_bounded_by_rounds anyEvent Demo.played "123456" Demo.playedRoom
           (Player.mk "bob" "Bob" Js.missing 100 false true)).
  - apply played_reachable.
  - by vm_compute.
  - right. left.
Defined.

(** X14. The round counter: [currentRound] stays between 0 and
    [totalRounds] (or 1, when a game is started with [totalRounds] below 1);
    a room that is playing or in [roundEnd] is in round 1 or later; and a
    room has a drawer exactly when a round has been started in it, that
    drawer being one of the room's players. *)
Theorem round_counter_facts {engine : Js.Engine} (allowed : Server → Event → Prop) (s : Server)
    (roomId : string) (room : GameRoom) :
  reachable allowed s →
  roomsCache s !! roomId = Some room →
  (0 ≤ Room.currentRound room ≤ Z.max 1 (Room.totalRounds room))%Z
  ∧ (Room.gameStatus room = playing ∨ Room.gameStatus room = roundEnd →
     (1 ≤ Room.currentRound room)%Z)
  ∧ (Room.drawingPlayerId room = None ↔ Room.currentRound room = 0%Z)
  ∧ (∀ d, Room.drawingPlayerId room = Some d →
          ∃ p, p ∈ Room.players room ∧ Player.id p = d).
Proof.
  intros Hreach Hroom.
  destruct (reachable_shape allowed s Hreach roomId room Hroom) as [_ Hshape].
  pose proof (shape_round _ Hshape) as Hround.
  pose proof (shape_unstarted _ Hshape) as Hun.
  pose proof (shape_drawer _ Hshape) as Hdrawer.
  split; [done|]. split; [|split].
  - intros Hstatus.
    destruct (decide (Room.currentRound room = 0%Z)) as [Hzero|?]; [|lia].
    destruct (Hun Hzero) as (? & ? & _). by destruct Hstatus.
  - split.
    + intros Hnone.
      destruct (decide (Room.currentRound room = 0%Z)) as [Hzero|?]; [done|].
      destruct Hdrawer as (d & Hd & _); [lia|]. congruence.
    + intros Hzero. by destruct (Hun Hzero) as (_ & _ & ? & _).
  - intros d Hd.
    destruct (decide (Room.currentRound room = 0%Z)) as [Hzero|?].
    + destruct (Hun Hzero) as (_ & _ & ? & _). congruence.
    + destruct Hdrawer as (d' & Hd' & Hin); [lia|].
      apply list_elem_of_fmap in Hin as (p & -> & Hp).
      exists p. split; [done|]. congruence.
Qed.

Lemma round_counter_facts_witness :
  (0 ≤ Room.currentRound Demo.playedRoom ≤ Z.max 1 3)%Z
  ∧ ∃ p, p ∈ Room.players Demo.playedRoom ∧ Player.id p = "alice".
Proof.
  destruct (round_counter_facts anyEvent Demo.played "123456" Demo.playedRoom)
    as (Hround & _ & _ & Hdrawer).
  - apply played_reachable.
  - by vm_compute.
  - split; [exact Hround|]. by apply Hdrawer.
Defined.

(** X15. No ghost rooms: a room in the registry that has any player has a
    connected one.  (The last connected player to leave takes the room with
    them.) *)
Theorem populated_room_has_connected_player {engine : Js.Engine} (allowed : Server → Event → Prop)
    (s : Server) (roomId : string) (room : GameRoom) :
  reachable allowed s →
  roomsCache s !! roomId = Some room →
  Room.players room ≠ [] →
  ∃ p, p ∈ Room.players room ∧ Player.isConnected p = true.
Proof.
  intros Hreach Hroom Hsome.
  destruct (reachable_shape allowed s Hreach roomId room Hroom) as [_ Hshape].
  pose proof (shape_connected _ Hshape Hsome) as Hconn.
  destruct (Room.connectedPlayers room) as [|p rest] eqn:Hc; [done|].
  exists p. assert (Hin : p ∈ Room.connectedPlayers room) by (rewrite Hc; left).
  by apply elem_of_connectedPlayers in Hin as [? ?].
Qed.

Lemma populated_room_has_connected_player_witness :
  ∃ p, p ∈ Room.players Demo.playedRoom ∧ Player.isConnected p = true.
Proof.
  apply (populated_room_has_connected_player anyEvent Demo.played "123456").
  - apply played_reachable.
  - by vm_compute.
  - discriminate.
Defined.

(** X16. [correctGuessers] behaves as a set: it never lists an id twice,
    and it never lists the drawer. *)
Theorem correctGuessers_is_a_set {engine : Js.Engine} (allowed : Server → Event → Prop) (s : Server)
    (roomId : string) (room : GameRoom) :
  reachable allowed s →
  roomsCache s !! roomId = Some room →
  NoDup (Room.guessers room)
  ∧ ∀ d, Room.drawingPlayerId room = Some d → d ∉ Room.guessers room.
Proof.
  intros Hreach Hroom.
  destruct (reachable_shape allowed s Hreach roomId room Hroom) as [_ Hshape].
  split; [apply (shape_guessers _ Hshape)|].
  apply (inv_guessers _ _ (reachable_invariant allowed s Hreach roomId room Hroom)).
Qed.

Lemma correctGuessers_is_a_set_witness :
  NoDup (Room.guessers Demo.playedRoom)
  ∧ ∀ d, Room.drawingPlayerId Demo.playedRoom = Some d →
         d ∉ Room.guessers Demo.playedRoom.
Proof.
  apply (correctGuessers_is_a_set anyEvent Demo.played "123456").
  - apply played_reachable.
  - by vm_compute.
Defined.

(** X17. In the message log of a room, every message recorded as a correct
    guess carries the fixed marker as its text. *)
Theorem correct_messages_are_redacted {engine : Js.Engine} (allowed : Server → Event → Prop)
    (s : Server) (roomId : string) (room : GameRoom) (m : ChatMessage) :
  reachable allowed s →
  roomsCache s !! roomId = Some room →
  m ∈ Room.messages room →
  Message.isCorrect m = true →
  Message.text m = guessedMarker.
Proof.
  intros Hreach Hroom Hm Hcorrect.
  destruct (reachable_shape allowed s Hreach roomId room Hroom) as [_ Hshape].
  by apply (shape_log _ Hshape).
Qed.

Lemma correct_messages_are_redacted_witness :
  Message.text (Message.mk "m1" Sample.bob guessedMarker true 2000)
    = guessedMarker.
Proof.
  apply (correct_messages_are_redacted anyEvent Demo.played "123456"
           Demo.playedRoom).
  - apply played_reachable.
  - by vm_compute.
  - left.
  - reflexivity.
Defined.

(* ===================================================================== *)
(** ** What no operation rewrites *)
(* ===================================================================== *)

Lemma extends_refl room : extends room room.
Proof. by repeat split. Qed.

Lemma extends_with_hostId room v : extends room (Room.with_hostId room v).
Proof. by repeat split. Qed.

Lemma extends_with_gameStatus room v : extends room (Room.with_gameStatus room v).
Proof. by repeat split. Qed.

Lemma extends_with_roundTimeLeft room v :
  extends room (Room.with_roundTimeLeft room v).
Proof. by repeat split. Qed.

Lemma extends_trans room1 room2 room3 :
  extends room1 room2 → extends room2 room3 → extends room1 room3.
Proof.
  intros (? & ? & ? & ? & ? & ?) (? & ? & ? & ? & ? & ?).
  repeat split; try congruence; by etrans.
Qed.

Lemma extends_with_players room players' :
  (Player.id <$> Room.players room) `prefix_of` (Player.id <$> players') →
  extends room (Room.with_players room players').
Proof. by repeat split. Qed.

Lemma extends_new_round room (rename : GamePlayer → GamePlayer) round word
    drawer timeLeft :
  (∀ p, Player.id (rename p) = Player.id p) →
  extends room
    (Room.mk (Room.id room) (Room.hostId room) (Room.settings room)
             (rename <$> Room.players room) (Room.messages room) round
             (Room.totalRounds room) word drawer playing timeLeft (Some [])
             (Room.createdAt room)).
Proof.
  intros Hrename. repeat split; try done. simpl.
  rewrite <- list_fmap_compose.
  by rewrite (list_fmap_ext (Player.id ∘ rename) Player.id (Room.players room))
    by (intros i p _; apply Hrename).
Qed.

Lemma roomsExtend_refl rooms : roomsExtend rooms rooms.
Proof. intros k r r' Hr Hr'. assert (r' = r) as -> by congruence. apply extends_refl. Qed.

Lemma roomsExtend_insert rooms roomId room room' :
  rooms !! roomId = Some room → extends room room' →
  roomsExtend rooms (<[roomId := room']> rooms).
Proof.
  intros Hroom Hext k r r' Hr. rewrite lookup_insert. case_decide.
  - subst k. intros [= <-]. by assert (r = room) as -> by congruence.
  - intros Hr'. assert (r' = r) as -> by congruence. apply extends_refl.
Qed.

Lemma roomsExtend_delete rooms roomId : roomsExtend rooms (delete roomId rooms).
Proof.
  intros k r r' Hr. rewrite lookup_delete. case_decide; [done|].
  intros Hr'. assert (r' = r) as -> by congruence. apply extends_refl.
Qed.

Lemma joinRoom_extends roomId player s :
  roomsExtend (roomsCache s) (roomsCache (joinRoom roomId player s).1).
Proof.
  unfold joinRoom.
  destruct (roomsCache s !! roomId) as [room|] eqn:Hroom; [|apply roomsExtend_refl].
  set (f := λ p : GamePlayer, bool_decide (Player.id p = User.id player)).
  destruct (decide (Js.findIndex f (Room.players room) ≠ (-1)%Z)) as [Hfound|Hnone].
  - destruct (findIndex_found f _ Hfound) as (n & x & Hidx & Hn & Hx & _).
    apply bool_decide_eq_true in Hx. rewrite Hidx, Nat2Z.id.
    apply (roomsExtend_insert _ _ room); [done|].
    apply extends_with_players. rewrite fmap_alter_same; [done|].
    intros y Hy. assert (y = x) as -> by congruence. done.
  - case_decide; [apply roomsExtend_refl|].
    apply (roomsExtend_insert _ _ room); [done|].
    apply extends_with_players. rewrite fmap_app. by apply prefix_app_r.
Qed.

Lemma leaveRoom_extends roomId playerId s :
  roomsExtend (roomsCache s) (roomsCache (leaveRoom roomId playerId s).1).
Proof.
  unfold leaveRoom.
  destruct (roomsCache s !! roomId) as [room|] eqn:Hroom; [|apply roomsExtend_refl].
  case_decide; [|apply roomsExtend_refl]. cbn zeta.
  set (room' := Room.with_players room _). simpl.
  assert (Hext : extends room room').
  { apply extends_with_players. by rewrite fmap_alter_same. }
  destruct (Room.connectedPlayers room') as [|first rest].
  - apply roomsExtend_delete.
  - case_decide; apply (roomsExtend_insert _ _ room); done.
Qed.

Lemma addMessage_extends {engine : Js.Engine} roomId message now s :
  roomsExtend (roomsCache s) (roomsCache (addMessage roomId message now s).1).
Proof.
  unfold addMessage.
  destruct (roomsCache s !! roomId) as [room|] eqn:Hroom;
    [|repeat case_decide; apply roomsExtend_refl].
  cbn zeta.
  case_decide as Hguess; [destruct (negb _)|]; cbv beta iota zeta; cbn [fst];
    apply (roomsExtend_insert _ _ room); try done.
  - case_decide.
    + repeat split; simpl; try done; [by apply prefix_app_r|].
      by rewrite fmap_alter_same.
    + repeat split; simpl; try done. by apply prefix_app_r.
  - repeat split; simpl; try done. by apply prefix_app_r.
  - repeat split; simpl; try done. by apply prefix_app_r.
Qed.

Lemma startGame_extends roomId firstPlayerIndex randomWord s :
  roomsExtend (roomsCache s)
              (roomsCache (startGame roomId firstPlayerIndex randomWord s).1).
Proof.
  rewrite startGame_eq; cbn zeta.
  destruct (roomsCache s !! roomId) as [room|] eqn:Hroom; [|apply roomsExtend_refl].
  case_decide; [apply roomsExtend_refl|].
  destruct (_ !! firstPlayerIndex); [|apply roomsExtend_refl].
  simpl. rewrite roomsCache_startRoundTimer. simpl.
  apply (roomsExtend_insert _ _ room); [done|]. by apply extends_new_round.
Qed.

Lemma endRound_extends roomId s :
  roomsExtend (roomsCache s) (roomsCache (endRound roomId s).1).
Proof.
  rewrite endRound_eq; cbn zeta.
  destruct (roomsCache s !! roomId) as [room|] eqn:Hroom; [|apply roomsExtend_refl].
  case_decide; [apply roomsExtend_refl|]. simpl.
  apply (roomsExtend_insert _ _ room); [done|]. apply extends_with_gameStatus.
Qed.

Lemma endRoundTimeout_extends roomId randomWord s :
  roomsExtend (roomsCache s) (roomsCache (endRoundTimeout roomId randomWord s)).
Proof.
  rewrite endRoundTimeout_eq; cbn zeta.
  destruct (roomsCache s !! roomId) as [room|] eqn:Hroom; [|apply roomsExtend_refl].
  case_decide.
  { apply (roomsExtend_insert _ _ room); [done|]. apply extends_with_gameStatus. }
  case_decide.
  { apply (roomsExtend_insert _ _ room); [done|]. apply extends_with_gameStatus. }
  destruct (Js.at_ _ _); [|apply roomsExtend_refl].
  rewrite roomsCache_startRoundTimer. simpl.
  apply (roomsExtend_insert _ _ room); [done|]. by apply extends_new_round.
Qed.

Lemma countdownTick_extends k s :
  roomsExtend (roomsCache s) (roomsCache (countdownTick k s)).
Proof.
  destruct (intervals s !! k) as [roomId|] eqn:Hk;
    [|rewrite countdownTick_eq; cbn zeta; rewrite Hk; apply roomsExtend_refl].
  destruct (roomsCache s !! roomId) as [room|] eqn:Hroom;
    [|rewrite countdownTick_eq; cbn zeta; rewrite Hk, Hroom; apply roomsExtend_refl].
  destruct (decide (Room.gameStatus room = playing)) as [Hplaying|Hnot].
  - rewrite (countdownTick_playing s k roomId room) by done.
    case_decide; simpl; apply (roomsExtend_insert _ _ room); done.
  - rewrite countdownTick_eq; cbn zeta. rewrite Hk, Hroom. rewrite decide_True by done.
    apply roomsExtend_refl.
Qed.

(** X18. Whatever happens to the server, short of creating a room under the
    same id again, a room that is still there afterwards has the same id,
    settings, [totalRounds] and creation time; its message log has only
    grown at the end, and so has its player list: nobody is ever removed or
    reordered, so the join order is stable. *)
Theorem rooms_only_grow {engine : Js.Engine} (e : Event) (s : Server) (roomId : string)
    (room room' : GameRoom) :
  roomsCache s !! roomId = Some room →
  roomsCache (run e s) !! roomId = Some room' →
  ¬ recreates e roomId →
  Room.id room' = Room.id room
  ∧ Room.settings room' = Room.settings room
  ∧ Room.totalRounds room' = Room.totalRounds room
  ∧ Room.createdAt room' = Room.createdAt room
  ∧ Room.messages room `prefix_of` Room.messages room'
  ∧ (Player.id <$> Room.players room) `prefix_of` (Player.id <$> Room.players room').
Proof.
  intros Hroom Hroom' Hnew. change (extends room room').
  destruct e; simpl in *.
  - rewrite lookup_insert_ne in Hroom' by done.
    assert (room' = room) as -> by congruence. apply extends_refl.
  - exact (joinRoom_extends _ _ _ roomId room room' Hroom Hroom').
  - exact (leaveRoom_extends _ _ _ roomId room room' Hroom Hroom').
  - exact (addMessage_extends _ _ _ _ roomId room room' Hroom Hroom').
  - exact (startGame_extends _ _ _ _ roomId room room' Hroom Hroom').
  - exact (endRound_extends _ _ roomId room room' Hroom Hroom').
  - exact (countdownTick_extends _ _ roomId room room' Hroom Hroom').
  - unfold fireTimeout, timeoutFired in Hroom'. destruct (timeouts s !! k).
    + exact (endRoundTimeout_extends _ _ (mkServer _ _ _ _) roomId room room'
               Hroom Hroom').
    + assert (room' = room) as -> by congruence. apply extends_refl.
  - rewrite cleanup_fold_lookup, Hroom in Hroom'.
    case_decide; [done|]. assert (room' = room) as -> by congruence.
    apply extends_refl.
Qed.

Lemma rooms_only_grow_witness :
  Room.settings Demo.playedRoom = Room.settings Sample.startedRoom
  ∧ Room.messages Sample.startedRoom `prefix_of` Room.messages Demo.playedRoom.
Proof.
  destruct (rooms_only_grow (SendMessage "123456" Sample.bobGuess 2000)
              Sample.started "123456" Sample.startedRoom
              (Room.with_messages
                 (Room.with_players
                    (Room.with_correctGuessers Sample.startedRoom ["bob"])
                    [ Player.mk "alice" "Alice" Js.missing 0 true true;
                      Player.mk "bob" "Bob" Js.missing 100 false true;
                      Player.mk "carol" "Carol" Js.missing 0 false true ])
                 [Message.mk "m1" Sample.bob guessedMarker true 2000]))
    as (_ & Hsettings & _ & _ & Hlog & _).
  - by vm_compute.
  - by vm_compute.
  - intros [].
  - split; [exact Hsettings|]. by exists (Room.messages Demo.playedRoom).
Defined.


(* ===================================================================== *)
(** ** Rounds never get stuck *)
(* ===================================================================== *)




Lemma countdownTickUpdate_cases k s :
  (intervals s !! k = None ∧ countdownTickUpdate k s = (s, None))
  ∨ ∃ roomId, intervals s !! k = Some roomId
    ∧ ((∀ room, roomsCache s !! roomId = Some room →
                Room.gameStatus room ≠ playing)
       ∧ countdownTickUpdate k s = (clearInterval k s, None)
       ∨ ∃ room ticked, roomsCache s !! roomId = Some room
           ∧ Room.gameStatus room = playing
           ∧ Room.gameStatus ticked = playing
           ∧ (countdownTickUpdate k s
              = (clearInterval k
                   (saveRooms s (<[roomId := ticked]> (roomsCache s))),
                 Some roomId)
              ∨ countdownTickUpdate k s
                = (saveRooms s (<[roomId := ticked]> (roomsCache s)), None))).
Proof.
  unfold countdownTickUpdate.
  destruct (intervals s !! k) as [roomId|]; [|by left].
  right. exists roomId. split; [done|].
  destruct (roomsCache s !! roomId) as [room|]; [|by left].
  case_decide as Hstatus.
  - left. split; [|done]. by intros ? [= <-].
  - right. exists room. eexists. split; [done|].
    split; [by destruct (Room.gameStatus room)|]. cbn zeta.
    split; [|case_decide; [by left|by right]].
    simpl. by destruct (Room.gameStatus room).
Qed.










(* ===================================================================== *)
(** ** Playing a game to its end *)
(* ===================================================================== *)

(** A round-end in the last round: the game is over. *)
Lemma roundEndAndAdvance_last (s : Server) (roomId : string) (room : GameRoom)
    (randomWord : string) :
  roomsCache s !! roomId = Some room →
  Room.gameStatus room = playing →
  (Room.totalRounds room ≤ Room.currentRound room)%Z →
  roundEndAndAdvance roomId s randomWord
  = mkServer (<[roomId := Room.with_gameStatus room gameEnd]> (roomsCache s))
             (intervals s) (timeouts s) (inheritedKeys s).
Proof.
  intros Hroom Hplaying Hlast. unfold roundEndAndAdvance. rewrite endRound_eq; cbn zeta.
  rewrite Hroom. rewrite decide_False by (intros Hne; by apply Hne).
  unfold fireTimeout, timeoutFired. simpl. rewrite list_lookup_middle by done.
  rewrite endRoundTimeout_eq; cbn zeta. simpl. rewrite lookup_insert_eq. simpl.
  rewrite decide_True by done. unfold saveRooms. simpl.
  rewrite insert_insert_eq.
  replace (timeouts s ++ [roomId]) with (timeouts s ++ roomId :: []) by done.
  by rewrite delete_middle, app_nil_r.
Qed.

Lemma playRounds_keeps_totalRounds (roomId : string) (words : list string) :
  ∀ (s : Server) (room : GameRoom) (i : nat),
    roomsCache s !! roomId = Some room →
    Room.gameStatus room = playing →
    NoDup (Player.id <$> Room.players room) →
    2 ≤ length (Room.connectedPlayers room) →
    i < length (Room.connectedPlayers room) →
    Room.drawingPlayerId room = connectedIds room !! i →
    (Room.currentRound room + Z.of_nat (length words) ≤ Room.totalRounds room)%Z →
    ∃ room',
      roomsCache (playRounds roomId words s) !! roomId = Some room'
      ∧ Room.totalRounds room' = Room.totalRounds room
      ∧ Room.settings room' = Room.settings room.
Proof.
  induction words as [|w words IH];
    intros s room i Hroom Hplaying Hnodup Hmany Hi Hdrawer Hmore.
  - by exists room.
  - simpl in Hmore.
    destruct (roundEndAndAdvance_rotates s roomId room i w)
      as (room1 & Hroom1 & Hplaying1 & Hround1 & Htotal1 & Hids1 & Hconn1 & Hdrawer1);
      [done..|lia|].
    assert (Hsettings1 : Room.settings room1 = Room.settings room).
    { pose proof (endRound_extends roomId s) as Hext1.
      destruct (roomsCache (endRound roomId s).1 !! roomId) as [mid|] eqn:Hmid.
      - pose proof (Hext1 roomId room mid Hroom Hmid) as (_ & Hs1 & _).
        unfold roundEndAndAdvance, fireTimeout, timeoutFired in Hroom1.
        destruct (timeouts (endRound roomId s).1 !! length (timeouts s)).
        + pose proof (endRoundTimeout_extends s0 w (mkServer _ _ _ _)
                        roomId mid room1 Hmid Hroom1) as (_ & Hs2 & _).
          congruence.
        + congruence.
      - exfalso. rewrite !endRound_eq in Hmid; cbn zeta in Hmid. rewrite Hroom in Hmid.
        case_decide; simpl in Hmid; [congruence|].
        by rewrite lookup_insert_eq in Hmid. }
    assert (Hcids : connectedIds room1 = connectedIds room).
    { unfold connectedIds. rewrite Hconn1, <- list_fmap_compose.
      by apply list_fmap_ext. }
    assert (Hlen : length (Room.connectedPlayers room1)
                   = length (Room.connectedPlayers room))
      by (by rewrite Hconn1, length_fmap).
    destruct (IH (roundEndAndAdvance roomId s w) room1
                ((i + 1) mod length (Room.connectedPlayers room)))
      as (room' & Hroom' & Htotal' & Hsettings').
    + done.
    + done.
    + by rewrite Hids1.
    + lia.
    + rewrite Hlen. apply Nat.mod_upper_bound. lia.
    + by rewrite Hcids.
    + lia.
    + exists room'. simpl. split; [done|]. split; congruence.
Qed.

(** X20. A game runs for exactly [totalRounds] rounds.  In a reachable
    playing room with at least two connected players, a connected drawer and
    nobody joining or leaving, the round-ends of the remaining rounds start
    one next round each, and the round-end of round [totalRounds] ends the
    game: the room is in [gameEnd] with [currentRound = totalRounds], the
    drawer of the last round is still named, no continuation of these rounds
    is left pending, and a further [endRound] is refused. *)
Theorem game_ends_after_last_round {engine : Js.Engine} (allowed : Server → Event → Prop)
    (s : Server) (roomId : string) (room : GameRoom) (i : nat)
    (words : list string) (lastWord : string) :
  reachable allowed s →
  roomsCache s !! roomId = Some room →
  Room.gameStatus room = playing →
  2 ≤ length (Room.connectedPlayers room) →
  i < length (Room.connectedPlayers room) →
  Room.drawingPlayerId room = connectedIds room !! i →
  (Room.currentRound room + Z.of_nat (length words) = Room.totalRounds room)%Z →
  ∃ room',
    roomsCache (playRounds roomId (words ++ [lastWord]) s) !! roomId = Some room'
    ∧ Room.gameStatus room' = gameEnd
    ∧ Room.currentRound room' = Room.totalRounds room
    ∧ Room.drawingPlayerId room'
      = connectedIds room
          !! ((i + length words) mod length (Room.connectedPlayers room))
    ∧ timeouts (playRounds roomId (words ++ [lastWord]) s) = timeouts s
    ∧ endRound roomId (playRounds roomId (words ++ [lastWord]) s)
      = (playRounds roomId (words ++ [lastWord]) s,
         Failure "Game is not in progress").
Proof.
  intros Hreach Hroom Hplaying Hmany Hi Hdrawer Hrounds.
  pose proof (reachable_invariant allowed s Hreach roomId room Hroom) as Hinv.
  pose proof (inv_ids _ _ Hinv) as Hnodup.
  destruct (playRounds_rotates roomId words s room i)
    as (room1 & Hroom1 & Hplaying1 & Hround1 & _ & Hdrawer1); [done..|lia|].
  destruct (playRounds_keeps_totalRounds roomId words s room i)
    as (room1' & Hroom1' & Htotal1 & _); [done..|lia|].
  assert (room1' = room1) as -> by congruence.
  assert (Htimeouts : timeouts (playRounds roomId words s) = timeouts s).
  { clear -Hroom Hplaying Hnodup Hmany Hi Hdrawer Hrounds.
    assert (Hle : (Room.currentRound room + Z.of_nat (length words)
                   ≤ Room.totalRounds room)%Z) by lia. clear Hrounds.
    revert s room i Hroom Hplaying Hnodup Hmany Hi Hdrawer Hle.
    induction words as [|w words IH];
      intros s room i Hroom Hplaying Hnodup Hmany Hi Hdrawer Hle; [done|].
    simpl in Hle.
    destruct (roundEndAndAdvance_rotates s roomId room i w)
      as (room1 & Hroom1 & Hplaying1 & Hround1 & Htotal1 & Hids1 & Hconn1 & Hdrawer1);
      [done..|lia|].
    assert (Hlen : length (Room.connectedPlayers room1)
                   = length (Room.connectedPlayers room))
      by (by rewrite Hconn1, length_fmap).
    assert (Hcids : connectedIds room1 = connectedIds room).
    { unfold connectedIds. rewrite Hconn1, <- list_fmap_compose.
      by apply list_fmap_ext. }
    simpl. rewrite (IH (roundEndAndAdvance roomId s w) room1
                      ((i + 1) mod length (Room.connectedPlayers room)));
      [|done|done|by rewrite Hids1|lia
       |rewrite Hlen; apply Nat.mod_upper_bound; lia|by rewrite Hcids|lia].
    unfold roundEndAndAdvance, fireTimeout, timeoutFired.
    assert (Hend : endRound roomId s
              = (mkServer (<[roomId := Room.with_gameStatus room roundEnd]>
                             (roomsCache s))
                          (intervals s) (timeouts s ++ [roomId]) (inheritedKeys s), Success tt)).
    { rewrite endRound_eq; cbn zeta. rewrite Hroom.
      by rewrite decide_False by (intros Hne; by apply Hne). }
    rewrite Hend. simpl. rewrite list_lookup_middle by done.
    destruct (endRoundTimeout_arms roomId w
                (mkServer (<[roomId := Room.with_gameStatus room roundEnd]>
                             (roomsCache s))
                          (intervals s)
                          (delete (length (timeouts s)) (timeouts s ++ [roomId])) (inheritedKeys s)))
      as [_ ->]. simpl.
    replace (timeouts s ++ [roomId]) with (timeouts s ++ roomId :: []) by done.
    by rewrite delete_middle, app_nil_r. }
  unfold playRounds in *. rewrite foldl_snoc.
  rewrite (roundEndAndAdvance_last _ roomId room1 lastWord) by (done || lia).
  simpl. rewrite lookup_insert_eq. eexists. split; [reflexivity|]. simpl.
  split; [done|]. split; [lia|]. split; [done|]. split; [done|].
  rewrite endRound_eq; cbn zeta. simpl. rewrite lookup_insert_eq. by simpl.
Qed.

Lemma game_ends_after_last_round_witness :
  ∃ room',
    roomsCache (playRounds "123456" ["dog"; "cat"; "sun"] Sample.started)
      !! "123456" = Some room'
    ∧ Room.gameStatus room' = gameEnd
    ∧ Room.currentRound room' = 3%Z
    ∧ Room.drawingPlayerId room' = Some "carol".
Proof.
  destruct (game_ends_after_last_round anyEvent Sample.started "123456"
              Sample.startedRoom 0 ["dog"; "cat"] "sun")
    as (room' & Hroom' & Hend & Hround & Hdrawer & _).
  - apply reachable_runAll; [constructor|apply traceAllowed_anyEvent].
  - by vm_compute.
  - reflexivity.
  - vm_compute. lia.
  - vm_compute. lia.
  - reflexivity.
  - reflexivity.
  - exists room'. split; [exact Hroom'|]. split; [exact Hend|].
    split; [exact Hround|]. rewrite Hdrawer. reflexivity.
Defined.

(* ===================================================================== *)
(** ** Whole calls and overlapping calls *)
(* ===================================================================== *)

Lemma stretches_run {engine : Js.Engine} (e : Event) (s : Server) :
  noEndRound s e →
  stepAll (stretches e) (mkProcess s []) = mkProcess (run e s) [].
Proof.
  destruct e; intros He; try done; cbn.
  - unfold startGame.
    destruct (startGameUpdate roomId firstPlayerIndex randomWord s)
      as [s' [room'| |]]; reflexivity.
  - unfold countdownTick.
    destruct (countdownTickUpdate k s) as [s' [roomId|]]; [|reflexivity].
    cbn. unfold endRound.
    destruct (endRoundUpdate roomId s') as [s'' [[]| |]]; reflexivity.
  - unfold fireTimeout. destruct (timeouts s !! k) as [roomId|]; [|reflexivity].
    cbn. unfold endRoundTimeout.
    destruct (endRoundTimeoutUpdate roomId randomWord (timeoutFired k s))
      as [s' []]; reflexivity.
Qed.

(** X21. Running whole calls is one way of interleaving them: every state
    the server reaches by whole calls, one after the other, is a state of
    the server whose calls may overlap, with no call under way.  (The
    second countdown of a room that is started twice is there as well.) *)
Theorem whole_calls_interleave {engine : Js.Engine} (s : Server) :
  reachable noEndRound s → interleaved anyAction (mkProcess s []).
Proof.
  induction 1 as [|s e _ IH Hallowed]; [constructor|].
  rewrite <- (stretches_run e s Hallowed).
  apply interleaved_stepAll; [done|apply scheduleAllowed_anyAction].
Qed.

Lemma whole_calls_interleave_witness :
  interleaved anyAction (mkProcess Sample.startedTwice [])
  ∧ armedFor "123456" (intervals Sample.startedTwice) = 2.
Proof.
  split; [|by vm_compute].
  apply (whole_calls_interleave Sample.startedTwice).
  apply (reachable_runAll noEndRound
           (Sample.gameTrace ++ [StartGame "123456" 1 "dog"]));
    [constructor|]. cbn -[run]. by repeat split.
Defined.

(** What a stretch does to the registry: nothing, or what a whole call does
    to it, or it takes one second off the clock of a room. *)
Lemma step_rooms {engine : Js.Engine} (a : Action) (p : Process) :
  roomsCache (server (step a p)) = roomsCache (server p)
  ∨ (∃ e, (∀ roomId playerId, e = LeaveRoom roomId playerId → a = Command e)
          ∧ roomsCache (server (step a p)) = roomsCache (run e (server p)))
  ∨ (∃ roomId room, roomsCache (server p) !! roomId = Some room
       ∧ roomsCache (server (step a p))
         = <[roomId := Room.with_roundTimeLeft room (Room.roundTimeLeft room - 1)]>
             (roomsCache (server p))).
Proof.
  destruct a; cbn [step].
  - destruct (singleStretch e); [|by left].
    right. left. exists e. split; [by intros ? ? ->|done].
  - by left.
  - destruct (suspended p !! k) as [[roomId|?|?|?]|]; try by left.
    right. left. exists (StartGame roomId firstPlayerIndex randomWord).
    split; [done|]. cbn [server run]. unfold startGame.
    destruct (startGameUpdate _ _ _ _) as [s' [room'| |]]; cbn; try done.
    by rewrite roomsCache_startRoundTimer.
  - destruct (suspended p !! k) as [[?|roomId|?|?]|]; try by left.
    left. apply roomsCache_startRoundTimer.
  - cbn [server].
    destruct (countdownTickUpdate_cases k (server p))
      as [[Hk ->]|(roomId & Hk & [[Hstale ->]
            |(room & ticked & Hroom & Hplaying & Hticked & Hrun)])];
      [by left..|].
    right. right. exists roomId, room. split; [done|].
    unfold countdownTickUpdate in *. rewrite Hk, Hroom in *.
    rewrite decide_False in * by (intros Hne; by apply Hne). cbn zeta in *.
    by case_decide.
  - destruct (suspended p !! k) as [[?|?|roomId|?]|]; try by left.
    right. left. exists (EndRound roomId).
    split; [done|]. cbn [server run]. unfold endRound.
    by destruct (endRoundUpdate _ _) as [s' [[]| |]].
  - destruct (suspended p !! k) as [[?|?|?|roomId]|]; by left.
  - destruct (timeouts (server p) !! k) as [roomId|] eqn:Hk; [|by left].
    right. left. exists (RoundDelayElapsed k randomWord).
    split; [done|]. cbn [server run]. unfold fireTimeout. rewrite Hk.
    unfold endRoundTimeout.
    destruct (endRoundTimeoutUpdate _ _ _) as [s' []]; cbn; [|done].
    by rewrite roomsCache_startRoundTimer.
Qed.

(** X22. What holds of every room after whole calls holds when the calls
    overlap: in every state the server reaches, with any calls under way,
    each room is stored under its own id and has the properties the whole
    calls maintain ([roomInvariant]: [totalRounds] is [settings.rounds], the
    ids are distinct, a flagged player is the one [drawingPlayerId] names,
    the drawer is not among the [correctGuessers], and the drawer of a
    playing room is connected as long as no drawer leaves; [roomShape]:
    capacity, round counter, score bound, and so on).  Each stretch reads
    and updates the registry at one go, so no stretch sees a room half
    updated. *)
Theorem rooms_sound_when_calls_overlap {engine : Js.Engine}
    (allowed : Process → Action → Prop) (p : Process)
    (roomId : string) (room : GameRoom) :
  interleaved allowed p →
  roomsCache (server p) !! roomId = Some room →
  Room.id room = roomId
  ∧ roomInvariant (drawerStaysOn allowed) room
  ∧ roomShape room.
Proof.
  intros Hreach.
  assert (Hall : roomsInvariant (drawerStaysOn allowed) (roomsCache (server p))
                 ∧ roomsShape (roomsCache (server p))).
  { clear roomId room. induction Hreach as [|p a _ [IHinv IHshape] Hallowed].
    - split; intros roomId room; simpl; by rewrite lookup_empty.
    - destruct (step_rooms a p)
        as [->|[(e & Hleave & ->)|(roomId & room & Hroom & ->)]].
      + done.
      + split; [|by apply run_shape].
        apply run_invariant; [|done]. intros Hstays.
        destruct e; try (by intros []).
        rewrite (Hleave _ _ eq_refl) in Hallowed. by apply (Hstays p).
      + destruct (IHshape _ _ Hroom) as [Hid Hshape]. split.
        * apply roomsInvariant_insert; [done|].
          apply invariant_with_roundTimeLeft. by apply (IHinv roomId).
        * apply roomsShape_insert; [done..|]. by apply shape_with_roundTimeLeft. }
  intros Hroom. destruct Hall as [Hinv Hshape].
  destruct (Hshape _ _ Hroom) as [Hid Hsh]. split; [done|].
  split; [by apply (Hinv roomId)|done].
Qed.

Lemma rooms_sound_when_calls_overlap_witness :
  ∃ room, roomsCache (server Demo.overlappingStarts) !! "123456" = Some room
          ∧ Room.drawingPlayerId room = Some "bob"
          ∧ atMostOneDrawing room.
Proof.
  eexists. split; [by vm_compute|]. split; [reflexivity|].
  eapply atMostOneDrawing_of_invariant.
  refine (proj1 (proj2 (rooms_sound_when_calls_overlap anyAction
                          Demo.overlappingStarts "123456" _ _ _))).
  - apply interleaved_stepAll; [constructor|apply scheduleAllowed_anyAction].
  - by vm_compute.
Defined.
